(** * Bayesian linear regression with evidence approximation

    A shallow embedding of [bayesian_regression.py] (class
    [BayesianRegression]) and the properties of its methods.

    Conventions of the embedding.
    - numpy's float64 arithmetic is idealised as exact arithmetic on [R];
      a float division by zero is a numpy warning, never an exception, and
      is the total division of [R] here.  A division of two Python [int]s
      raises [ZeroDivisionError], and that is modelled.
    - Python 3 semantics: [/] is true division.
    - the design matrix and a query are 2-D arrays, the response is a 1-D
      array: a 1-D array is a [list R], a 2-D array a list of rows; shapes
      are checked where numpy checks them ([ValueError]).
    - exceptions are the [Raise] results of the [result] monad.
    - what a method reads besides its arguments is an argument of its
      embedding: the module-level name [Y] (bound or not), the two draws
      of [np.random.random(2)], and the factorization routine
      [np.linalg.svd]. *)

From Stdlib Require Import String.
From Stdlib Require Import Reals List ZArith Lia Lra Bool Arith.
Import ListNotations.

Open Scope R_scope.

(** ** Exceptions and results *)

(** The exceptions the interpreter or numpy can raise in this module,
    followed by the four error kinds the specification names.  No
    statement of the source raises one of the latter four. *)
Inductive exn : Type :=
| AttributeError
| NameError
| UnboundLocalError
| ZeroDivisionError
| TypeError
| ValueError
| LinAlgError
| ShapeError
| InvalidArgument
| NumericalError
| NotFittedError.

Inductive result (A : Type) : Type :=
| Ok (a : A)
| Raise (e : exn).

Arguments Ok {A} a.
Arguments Raise {A} e.

Definition bind {A B : Type} (r : result A) (k : A -> result B) : result B :=
  match r with
  | Ok a => k a
  | Raise e => Raise e
  end.

Notation "x <- r ;; k" := (bind r (fun x => k))
  (at level 61, r at next level, right associativity).
Notation "' p <- r ;; k" := (bind r (fun x => let p := x in k))
  (at level 61, p pattern, r at next level, right associativity).

Fixpoint mapM {A B : Type} (f : A -> result B) (l : list A) : result (list B) :=
  match l with
  | [] => Ok []
  | a :: l' => b <- f a ;; bs <- mapM f l' ;; Ok (b :: bs)
  end.

(** ** A fragment of numpy *)

Module np.

Abbreviation vec := (list R) (only parsing).
Abbreviation matrix := (list (list R)) (only parsing).

(** [np.sum] of a 1-D array. *)
Definition sum (v : vec) : R := fold_right Rplus 0 v.

(** [np.mean] of a 1-D array. *)
Definition mean (v : vec) : R := sum v / INR (length v).

(** [np.shape] of a 2-D array. *)
Definition nrows (M : matrix) : nat := length M.
Definition ncols (M : matrix) : nat := length (hd [] M).

(** Element-wise operation of two 1-D arrays of one length. *)
Fixpoint zip_with (f : R -> R -> R) (u v : vec) : vec :=
  match u, v with
  | a :: u', b :: v' => f a b :: zip_with f u' v'
  | _, _ => []
  end.

(** Inner product of two 1-D arrays of one length. *)
Definition vdot (u v : vec) : R := sum (zip_with Rmult u v).

(** [M.T] *)
Definition T (M : matrix) : matrix :=
  map (fun j => map (fun r => nth j r 0) M) (seq 0 (ncols M)).

(** [np.diag] of a 1-D array: the square matrix with it on the diagonal. *)
Definition diag (v : vec) : matrix :=
  map (fun i => map (fun j => if Nat.eqb i j then nth i v 0 else 0)
                    (seq 0 (length v)))
      (seq 0 (length v)).

(** [np.dot] of two 1-D arrays. *)
Definition dot_vv (u v : vec) : result R :=
  if Nat.eqb (length u) (length v) then Ok (vdot u v) else Raise ValueError.

(** [np.dot] of a 2-D and a 1-D array. *)
Definition dot_mv (M : matrix) (v : vec) : result vec :=
  if Nat.eqb (ncols M) (length v)
  then Ok (map (fun r => vdot r v) M)
  else Raise ValueError.

(** [np.dot] of two 2-D arrays. *)
Definition dot_mm (M N : matrix) : result matrix :=
  if Nat.eqb (ncols M) (nrows N)
  then Ok (map (fun r => map (fun c => vdot r c) (T N)) M)
  else Raise ValueError.

(** Element-wise operation of two 1-D arrays under numpy's broadcasting
    rule: equal lengths, or one of the two of length one. *)
Definition broadcast (f : R -> R -> R) (u v : vec) : result vec :=
  if Nat.eqb (length u) (length v) then Ok (zip_with f u v)
  else match u, v with
       | [a], _ => Ok (map (fun b => f a b) v)
       | _, [b] => Ok (map (fun a => f a b) u)
       | _, _ => Raise ValueError
       end.

End np.

(** ** Python values *)

(** What the attributes [alpha] and [beta] hold: the [int] that [__init__]
    stores, or the [np.float64] that [_evidence_approx] stores. *)
Inductive pyscalar : Type :=
| PyInt (z : Z)
| NpFloat (x : R).

Definition to_float (s : pyscalar) : R :=
  match s with
  | PyInt z => IZR z
  | NpFloat x => x
  end.

(** [a / b]: two [int]s divide as Python numbers, and a zero divisor raises;
    as soon as one side is a numpy float the division is numpy's. *)
Definition truediv (a b : pyscalar) : result R :=
  match a, b with
  | PyInt _, PyInt Z0 => Raise ZeroDivisionError
  | _, _ => Ok (to_float a / to_float b)
  end.

(** A dynamically typed value: a scalar, a 1-D array or a 2-D array. *)
Inductive pyval : Type :=
| Scalar (s : pyscalar)
| Array1 (v : np.vec)
| Array2 (M : np.matrix).

(** [np.dot(x, w)] of a 2-D array [x] and any value [w]: with a scalar it is
    the element-wise product. *)
Definition dot_any (x : np.matrix) (w : pyval) : result pyval :=
  match w with
  | Scalar s => Ok (Array2 (map (map (fun a => a * to_float s)) x))
  | Array1 v => r <- np.dot_mv x v ;; Ok (Array1 r)
  | Array2 M => r <- np.dot_mm x M ;; Ok (Array2 r)
  end.

(** ** The class [BayesianRegression] *)

Module BayesianRegression.

Import np.
Local Open Scope string_scope.

(** The instance attributes.  [X] is a 2-D array and [Y] a 1-D array, as
    the constructor receives them; [diag] exists once
    [_weights_posterior_params] has run. *)
Record obj : Type := Build {
  X : matrix;
  mu_X : vec;
  Y : vec;
  mu_Y : R;
  thresh : R;
  u : matrix;
  d : vec;
  v : matrix;
  alpha : pyscalar;
  beta : pyscalar;
  w_mu : pyval;
  w_beta : pyval;
  diag_ : option vec
}.

Definition set_hyper (self : obj) (a b : pyscalar) : obj :=
  Build (X self) (mu_X self) (Y self) (mu_Y self) (thresh self)
        (u self) (d self) (v self) a b (w_mu self) (w_beta self) (diag_ self).

Definition set_diag (self : obj) (dg : vec) : obj :=
  Build (X self) (mu_X self) (Y self) (mu_Y self) (thresh self)
        (u self) (d self) (v self) (alpha self) (beta self)
        (w_mu self) (w_beta self) (Some dg).

Definition set_weights (self : obj) (m p : pyval) : obj :=
  Build (X self) (mu_X self) (Y self) (mu_Y self) (thresh self)
        (u self) (d self) (v self) (alpha self) (beta self) m p (diag_ self).

(** *** [_center] *)

(** [np.mean(x, axis = 0)]: the mean of every column. *)
Definition mean_axis0 (x : matrix) : vec := map mean (T x).

(** The branch [len(x.shape) > 1]: [x - mu] subtracts [mu] from every row. *)
Definition _center_2d (x : matrix) : matrix * vec :=
  let mu := mean_axis0 x in
  (map (fun r => zip_with Rminus r mu) x, mu).

(** The other branch. *)
Definition _center_1d (x : vec) : vec * R :=
  let mu := mean x in
  (map (fun a => a - mean x) x, mu).

Definition _center (x : pyval) : result (pyval * pyval) :=
  match x with
  | Array2 M => let '(c, mu) := _center_2d M in Ok (Array2 c, Array1 mu)
  | Array1 w => let '(c, mu) := _center_1d w in Ok (Array1 c, Scalar (NpFloat mu))
  | Scalar (NpFloat a) => Ok (Scalar (NpFloat (a - a)), Scalar (NpFloat a))
  | Scalar (PyInt _) => Raise AttributeError
  end.

(** *** [__init__]

    [X] is a 2-D array and [Y] a 1-D array, so [self._center(X)] takes the
    first branch of [_center] and [self._center(Y)] the second. *)

Section Init.

(** [np.linalg.svd(_, full_matrices = False)] of a 2-D array: the three
    factors, or [None] when it raises [LinAlgError]. *)
Variable svd : matrix -> option (matrix * vec * matrix).

Definition __init__ (X0 : matrix) (Y0 : vec) (thresh0 : R) : result obj :=
  let '(Xc, muX) := _center_2d X0 in
  let '(Yc, muY) := _center_1d Y0 in
  match svd Xc with
  | None => Raise LinAlgError
  | Some (u0, d0, v0) =>
      Ok (Build Xc muX Yc muY thresh0 u0 d0 v0
                (PyInt 0) (PyInt 0)
                (Scalar (PyInt 0)) (Scalar (PyInt 0)) None)
  end.

End Init.

(** *** [_weights_posterior_params] *)

Definition _weights_posterior_params (self : obj) (alpha beta : pyscalar)
  : result (obj * (vec * matrix)) :=
  XtX <- dot_mm (T (X self)) (X self) ;;
  let precision :=
    map (map (fun a => a + to_float alpha))
        (map (map (fun a => to_float beta * a)) XtX) in
  r <- truediv alpha beta ;;
  let dg := zip_with Rdiv (d self)
              (map (fun t => t + r) (map (fun t => t ^ 2) (d self))) in
  let self := set_diag self dg in
  p1 <- dot_mm (T (v self)) (diag dg) ;;
  p2 <- dot_mv (T (u self)) (Y self) ;;
  w_mu <- dot_mv p1 p2 ;;
  Ok (self, (w_mu, precision)).

(** *** [_pred_dist_params] *)

Definition _pred_dist_params (self : obj) (alpha beta : pyscalar)
  (x : matrix) (w_mu w_precision : pyval) : result (pyval * vec) :=
  mu_pred <- dot_any x w_mu ;;
  r <- truediv alpha beta ;;
  let d := map (fun t => 1 / t)
             (map (fun t => t + r) (map (fun t => t ^ 2) (d self))) in
  p <- dot_mm (T (v self)) (diag d) ;;
  S <- dot_mm p (v self) ;;
  var_pred <- mapM (fun u => Su <- dot_mv S u ;;
                             q <- dot_vv u Su ;;
                             Ok ((1 + q) / to_float beta)) x ;;
  Ok (mu_pred, var_pred).

(** *** [_evidence_approx] *)

(** The local variables that live across iterations.  [error] is bound by
    the fixed-point branch only, [err] by the EM branch only. *)
Record locals : Type := Locals {
  l_alpha : R;
  l_beta : R;
  l_mu : option vec;
  l_error : option vec;
  l_err : option vec;
  log_likes : list R
}.

(** Reading a name of the module's global namespace. *)
Definition read_global {A : Type} (g : option A) : result A :=
  match g with
  | Some a => Ok a
  | None => Raise NameError
  end.

(** Reading a local variable of the function. *)
Definition read_local {A : Type} (l : option A) : result A :=
  match l with
  | Some a => Ok a
  | None => Raise UnboundLocalError
  end.

(** The posterior mean of an iteration (lines 162-165).  [Y] is not a local
    name and not [self.Y]: it is read from the module's globals. *)
Definition iteration_mean (self : obj) (Y_global : option vec)
  (alpha beta : R) : result vec :=
  let d2 := map (fun t => t ^ 2) (d self) in
  p1_mu <- dot_mm (T (v self))
             (diag (zip_with Rdiv (d self)
                      (map (fun t => t + alpha / beta) d2))) ;;
  Yg <- read_global Y_global ;;
  p2_mu <- dot_mv (T (u self)) Yg ;;
  dot_mv p1_mu p2_mu.

(** The branch [method == "fixed-point"] (lines 170-175). *)
Definition fixed_point_update (self : obj) (mu : vec) (st : locals)
  : result locals :=
  let n := nrows (X self) in
  let alpha := l_alpha st in
  let beta := l_beta st in
  let d2 := map (fun t => t ^ 2) (d self) in
  let gamma := sum (zip_with Rdiv (map (fun t => beta * t) d2)
                      (map (fun t => t + alpha)
                         (map (fun t => beta * t) d2))) in
  mm <- dot_vv mu mu ;;
  let alpha := gamma / mm in
  Xmu <- dot_mv (X self) mu ;;
  error <- broadcast Rminus (Y self) Xmu ;;
  ee <- dot_vv error error ;;
  let beta := (INR n - gamma) / ee in
  Ok (Locals alpha beta (Some mu) (Some error) (l_err st) (log_likes st)).

(** The branch [method == "EM"] (lines 180-182).  The residual is bound to
    [err], and is taken from the global [Y]. *)
Definition em_update (self : obj) (Y_global : option vec) (mu : vec)
  (st : locals) : result locals :=
  let n := nrows (X self) in
  let m := ncols (X self) in
  let alpha := l_alpha st in
  let beta := l_beta st in
  let d2 := map (fun t => t ^ 2) (d self) in
  mm <- dot_vv mu mu ;;
  let alpha := INR m / (mm + sum (map (fun t => 1 / t)
                                   (map (fun t => t + alpha)
                                      (map (fun t => beta * t) d2)))) in
  Yg <- read_global Y_global ;;
  Xmu <- dot_mv (X self) mu ;;
  err <- broadcast Rminus Yg Xmu ;;
  ee <- dot_vv err err ;;
  let beta := INR n / (ee + sum (zip_with Rdiv d2
                                  (map (fun t => t + alpha)
                                     (map (fun t => beta * t) d2)))) in
  Ok (Locals alpha beta (Some mu) (l_error st) (Some err) (log_likes st)).

(** The log likelihood of an iteration (lines 185-187), from the updated
    [alpha] and [beta], [mu], and the local [error]. *)
Definition log_likelihood (self : obj) (mu : vec) (st : locals)
  : result R :=
  let n := nrows (X self) in
  let m := ncols (X self) in
  let alpha := l_alpha st in
  let beta := l_beta st in
  let d2 := map (fun t => t ^ 2) (d self) in
  let normaliser :=
    INR m / 2 * ln alpha + INR n / 2 * ln beta
    - 1 / 2 * sum (map ln (map (fun t => t + alpha)
                             (map (fun t => beta * t) d2))) in
  mm <- dot_vv mu mu ;;
  error <- read_local (l_error st) ;;
  ee <- dot_vv error error ;;
  Ok (normaliser - l_alpha st / 2 * mm - l_beta st / 2 * ee).

(** [log_likes[-1] - log_likes[-2] < self.thresh] *)
Definition small_increase (self : obj) (ll : list R) : bool :=
  let k := length ll in
  if Rlt_dec (nth (k - 1) ll 0 - nth (k - 2) ll 0) (thresh self)
  then true else false.

(** The body of the [for] loop at index [i]: the new locals, and whether
    [break] was executed. *)
Definition iteration (self : obj) (Y_global : option vec) (method : string)
  (i : nat) (st : locals) : result (locals * bool) :=
  mu <- iteration_mean self Y_global (l_alpha st) (l_beta st) ;;
  st <- (if String.eqb method "fixed-point" then fixed_point_update self mu st
         else if String.eqb method "EM" then em_update self Y_global mu st
         else Ok (Locals (l_alpha st) (l_beta st) (Some mu)
                         (l_error st) (l_err st) (log_likes st))) ;;
  log_like <- log_likelihood self mu st ;;
  let st := Locals (l_alpha st) (l_beta st) (l_mu st) (l_error st) (l_err st)
                   (log_likes st ++ [log_like]) in
  Ok (st, andb (Nat.leb 1 i) (small_increase self (log_likes st))).

(** [for i in range(max_iter)], from index [i] with [fuel] indices left. *)
Fixpoint for_range (self : obj) (Y_global : option vec) (method : string)
  (fuel i : nat) (st : locals) : result locals :=
  match fuel with
  | O => Ok st
  | S fuel' =>
      '(st', brk) <- iteration self Y_global method i st ;;
      if brk then Ok st'
      else for_range self Y_global method fuel' (S i) st'
  end.

(** [random2] are the two draws of [np.random.random(2)]. *)
Definition _evidence_approx (self : obj) (Y_global : option vec)
  (random2 : R * R) (max_iter : Z) (method : string) : result obj :=
  let '(alpha, beta) := random2 in
  st <- for_range self Y_global method (Z.to_nat max_iter) 0
          (Locals alpha beta None None None []) ;;
  Ok (set_hyper self (NpFloat (l_alpha st)) (NpFloat (l_beta st))).

(** *** Attribute lookup *)

(** The names bound in the class body and by [__init__]. *)
Definition class_names : list string :=
  ["__init__"; "_center"; "_weights_posterior_params"; "_pred_dist_params";
   "_evidence_approx"; "fit"; "predict"; "predict_mean"].

Definition instance_names (self : obj) : list string :=
  ["X"; "mu_X"; "Y"; "mu_Y"; "thresh"; "u"; "d"; "v";
   "alpha"; "beta"; "w_mu"; "w_beta"]
  ++ match diag_ self with Some _ => ["diag"] | None => [] end.

(** An attribute as [fit] uses it: called with the keywords [max_iter] and
    [method].  The one attribute that accepts them is [_evidence_approx]. *)
Inductive attribute : Type :=
| EvidenceMethod (f : Z -> string -> result obj)
| OtherAttribute.

Definition getattr (self : obj) (Y_global : option vec) (random2 : R * R)
  (name : string) : result attribute :=
  if String.eqb name "_evidence_approx"
  then Ok (EvidenceMethod (_evidence_approx self Y_global random2))
  else if existsb (String.eqb name) (instance_names self ++ class_names)
  then Ok OtherAttribute
  else Raise AttributeError.

Definition call_max_iter_method (a : attribute) (max_iter : Z)
  (method : string) : result obj :=
  match a with
  | EvidenceMethod f => f max_iter method
  | OtherAttribute => Raise TypeError
  end.

(** *** [fit] and [predict] *)

Definition fit (self : obj) (Y_global : option vec) (random2 : R * R)
  (evidence_approx_method : string) (iterations : Z) : result obj :=
  f <- getattr self Y_global random2 "_fixed_point_evidence_approx" ;;
  self <- call_max_iter_method f iterations evidence_approx_method ;;
  '(self, (w_mu, w_beta)) <-
     _weights_posterior_params self (alpha self) (beta self) ;;
  Ok (set_weights self (Array1 w_mu) (Array2 w_beta)).

(** The defaults of [fit]'s parameters. *)
Definition fit_default_method : string := "fixed_point".
Definition fit_default_iterations : Z := 100%Z.

(** [Y] is the optional second argument, [None] by default. *)
Definition predict (self : obj) (x : matrix) (Y_arg : option pyval)
  : result (pyval * vec) :=
  '(mu, var) <- _pred_dist_params self (alpha self) (beta self) x
                  (w_mu self) (w_beta self) ;;
  Ok (mu, var).

End BayesianRegression.

(** ** The formulas of the specification

    Matrices by their entries and sums by their index range, as the
    specification writes them. *)

Module Spec.

Import np.

(** The entry in row [i] and column [j]. *)
Definition entry (M : matrix) (i j : nat) : R := nth j (nth i M []) 0.

(** The sum of [f 0], ..., [f (n - 1)]. *)
Definition big_sum (n : nat) (f : nat -> R) : R := sum (map f (seq 0 n)).

(** The [n] by [m] matrix with entries [f i j]. *)
Definition mat (n m : nat) (f : nat -> nat -> R) : matrix :=
  map (fun i => map (fun j => f i j) (seq 0 m)) (seq 0 n).

Definition mul (A B : matrix) : matrix :=
  mat (nrows A) (ncols B)
      (fun i j => big_sum (ncols A) (fun l => entry A i l * entry B l j)).

Definition transpose (A : matrix) : matrix :=
  mat (ncols A) (nrows A) (fun i j => entry A j i).

Definition diagonal (w : vec) : matrix :=
  mat (length w) (length w) (fun i j => if Nat.eqb i j then nth i w 0 else 0).

Definition identity (m : nat) : matrix :=
  mat m m (fun i j => if Nat.eqb i j then 1 else 0).

Definition scale (c : R) (A : matrix) : matrix :=
  mat (nrows A) (ncols A) (fun i j => c * entry A i j).

Definition add (A B : matrix) : matrix :=
  mat (nrows A) (ncols A) (fun i j => entry A i j + entry B i j).

(** A matrix applied to a vector. *)
Definition mulv (A : matrix) (x : vec) : vec :=
  map (fun i => big_sum (length x) (fun j => entry A i j * nth j x 0))
      (seq 0 (nrows A)).

(** The inner product, the squared norm, and the quadratic form of [S]. *)
Definition inner (x y : vec) : R :=
  big_sum (length x) (fun j => nth j x 0 * nth j y 0).

Definition sq_norm (x : vec) : R :=
  big_sum (length x) (fun j => nth j x 0 ^ 2).

Definition quad (x : vec) (S : matrix) : R := inner x (mulv S x).

(** The sum of squared residuals between the response [y] and the design
    matrix [A] applied to the mean [mu]. *)
Definition rss (A : matrix) (y mu : vec) : R :=
  big_sum (length y) (fun i => (nth i y 0 - nth i (mulv A mu) 0) ^ 2).

(** The effective degrees of freedom: the sum over the singular values. *)
Definition gamma (d : vec) (alpha beta : R) : R :=
  sum (map (fun dk => (beta * dk ^ 2) / (beta * dk ^ 2 + alpha)) d).

(** The log-evidence score of section 4.3, step 4. *)
Definition log_evidence (n m : nat) (d : vec) (alpha beta : R)
  (norm2 residual2 : R) : R :=
  INR m / 2 * ln alpha + INR n / 2 * ln beta
  - 1 / 2 * sum (map (fun dk => ln (beta * dk ^ 2 + alpha)) d)
  - alpha / 2 * norm2 - beta / 2 * residual2.

End Spec.

(** ** Shapes *)

Definition is_matrix (n m : nat) (M : np.matrix) : Prop :=
  length M = n /\ Forall (fun r => length r = m) M.

Module BR := BayesianRegression.

(** [n] observations of [m] features and [k] retained singular values:
    [X] is [n] by [m], [Y] has length [n], and the stored factors are
    [u] ([n] by [k]), [d] (length [k]) and [v] ([k] by [m]). *)
Definition well_shaped (n m k : nat) (self : BR.obj) : Prop :=
  (0 < n)%nat /\ (0 < m)%nat /\ (0 < k)%nat /\
  is_matrix n m (BR.X self) /\ length (BR.Y self) = n /\
  is_matrix n k (BR.u self) /\ length (BR.d self) = k /\
  is_matrix k m (BR.v self).

(** ** The quantities of sections 4.4 and 4.5 *)

(** The right factor [V] of the specification, [m] by [k] with
    [X = U diag(D) V^T]: the transpose of the stored [v], which holds
    [V^T] as [np.linalg.svd] returns it. *)
Definition right_factor (self : BR.obj) : list (list R) :=
  Spec.transpose (BR.v self).

(** [d / (d^2 + r)] for every singular value [d]. *)
Definition posterior_weights (d : list R) (r : R) : list R :=
  map (fun dk => dk / (dk ^ 2 + r)) d.

(** The posterior mean [V diag(d / (d^2 + r)) U^T y] of the stored
    centered response [y]. *)
Definition posterior_mean (self : BR.obj) (r : R) : list R :=
  Spec.mulv
    (Spec.mul (Spec.mul (right_factor self)
                        (Spec.diagonal (posterior_weights (BR.d self) r)))
              (Spec.transpose (BR.u self)))
    (BR.Y self).

(** [beta X^T X + alpha I], the posterior precision as section 4.4 writes
    it, and [beta X^T X + alpha J] with [J] the matrix of ones. *)
Definition precision_as_written (A : list (list R)) (alpha beta : R)
  : list (list R) :=
  Spec.add (Spec.scale beta (Spec.mul (Spec.transpose A) A))
           (Spec.scale alpha (Spec.identity (np.ncols A))).

Definition precision_all_entries (A : list (list R)) (alpha beta : R)
  : list (list R) :=
  Spec.add (Spec.scale beta (Spec.mul (Spec.transpose A) A))
           (Spec.scale alpha
              (Spec.mat (np.ncols A) (np.ncols A) (fun _ _ => 1))).

(** [1 / (d^2 + r)] for every singular value [d]. *)
Definition inverse_weights (d : list R) (r : R) : list R :=
  map (fun dk => 1 / (dk ^ 2 + r)) d.

(** [V diag(1 / (d^2 + r)) V^T], [m] by [m]. *)
Definition S_of (self : BR.obj) (r : R) : list (list R) :=
  Spec.mul (Spec.mul (right_factor self)
                     (Spec.diagonal (inverse_weights (BR.d self) r)))
           (Spec.transpose (right_factor self)).

(** [V^T diag(1 / (d^2 + r)) V], as section 4.5 of the specification
    writes [S]. *)
Definition S_as_written (self : BR.obj) (r : R) : list (list R) :=
  Spec.mul (Spec.mul (Spec.transpose (right_factor self))
                     (Spec.diagonal (inverse_weights (BR.d self) r)))
           (right_factor self).

(** ** Example data

    Four observations of one feature, already centered, with the factors
    of their design matrix: [X1 = u1 * diag d1 * v1]. *)

Definition X1 : list (list R) := [[1]; [1]; [-1]; [-1]].
Definition Y1 : list R := [5; 5; 1; 1].
Definition u1 : list (list R) := [[1/2]; [1/2]; [-1/2]; [-1/2]].
Definition d1 : list R := [2].
Definition v1 : list (list R) := [[1]].

(** The model that the constructor builds from [X1] and [Y1]. *)
Definition br1 : BR.obj :=
  BR.Build X1 [0] [2; 2; -2; -2] 3 (1 / 100000) u1 d1 v1
           (PyInt 0) (PyInt 0) (Scalar (PyInt 0)) (Scalar (PyInt 0)) None.

(** Four observations of two features, centered, with the factors of
    their design matrix: [X2 = u2 * diag d2 * v2]. *)
Definition X2 : list (list R) := [[2; 1]; [2; -1]; [-2; 1]; [-2; -1]].
Definition Y2 : list R := [3; 1; -1; -3].
Definition u2 : list (list R) :=
  [[1/2; 1/2]; [1/2; -1/2]; [-1/2; 1/2]; [-1/2; -1/2]].
Definition d2 : list R := [4; 2].
Definition v2 : list (list R) := [[1; 0]; [0; 1]].

Definition br2 : BR.obj :=
  BR.Build X2 [0; 0] Y2 0 (1 / 100000) u2 d2 v2
           (PyInt 0) (PyInt 0) (Scalar (PyInt 0)) (Scalar (PyInt 0)) None.

(** Four observations of three features, centered, with singular values
    18, 12 and 6: [X3 = u3 * diag d3 * v3], where [v3] is the factor as
    [np.linalg.svd] returns it, its rows the right singular vectors. *)
Definition X3 : list (list R) :=
  [[6; 9; 3]; [6; 3; -9]; [-10; -1; 5]; [-2; -11; 1]].
Definition Y3 : list R := [1; 2; -1; -2].
Definition u3 : list (list R) :=
  [[1/2; 1/2; 1/2]; [1/2; -1/2; -1/2]; [-1/2; 1/2; -1/2]; [-1/2; -1/2; 1/2]].
Definition d3 : list R := [18; 12; 6].
Definition v3 : list (list R) :=
  [[2/3; 2/3; -1/3]; [-1/3; 2/3; 2/3]; [2/3; -1/3; 2/3]].

Definition br3 : BR.obj :=
  BR.Build X3 [0; 0; 0] Y3 0 (1 / 100000) u3 d3 v3
           (PyInt 0) (PyInt 0) (Scalar (PyInt 0)) (Scalar (PyInt 0)) None.

(** The singular vectors are determined up to their signs: the other
    factorizations of [X3] flip a column of [u3] together with the row of
    [v3] that belongs to it. *)
Definition sign (s : bool) : R := if s then 1 else -1.

Definition u3_signed (s0 s1 s2 : bool) : list (list R) :=
  map (fun r => np.zip_with Rmult r [sign s0; sign s1; sign s2]) u3.

Definition v3_signed (s0 s1 s2 : bool) : list (list R) :=
  map (fun sr => map (Rmult (fst sr)) (snd sr))
      (combine [sign s0; sign s1; sign s2] v3).

Definition br3_signed (s0 s1 s2 : bool) : BR.obj :=
  BR.Build X3 [0; 0; 0] Y3 0 (1 / 100000)
           (u3_signed s0 s1 s2) d3 (v3_signed s0 s1 s2)
           (PyInt 0) (PyInt 0) (Scalar (PyInt 0)) (Scalar (PyInt 0)) None.

(** A factorization routine that answers with the given factors. *)
Definition svd_returning (f : list (list R) * list R * list (list R))
  : list (list R) -> option (list (list R) * list R * list (list R)) :=
  fun _ => Some f.

(** Evaluation of the list structure of a closed term, down to
    expressions of real arithmetic. *)
Ltac np_eval :=
  lazy -[Rplus Rminus Rmult Rdiv Rinv Ropp IZR ln Rlt_dec].

(** Equality of two evaluated values, entry by entry: an equation between
    reals is closed by arithmetic, any other is taken apart. *)
Ltac real_equation := solve [lra | field_simplify; lra | field; lra].

Ltac entrywise :=
  repeat (match goal with
          | |- @eq R _ _ => real_equation
          | |- _ => progress f_equal
          end).

(** ** The script under [if __name__ == "__main__"]

    [np.linspace(a, b, n)], and the statements of the script.  [noise i]
    is draw [i] of [np.random.random(100)]; at the call of [fit] the
    module-level name [Y] is bound to the script's uncentered response. *)

Definition linspace (a b : R) (n : nat) : list R :=
  map (fun i => a + INR i * ((b - a) / INR (n - 1))) (seq 0 n).

Definition script_X : list (list R) :=
  map (fun t => [t]) (linspace 1 10 100).

Definition script_Y (noise : nat -> R) : list R :=
  np.zip_with Rplus (map (fun t => 4 * t) (linspace 1 10 100))
                    (map (fun t => 5 * t) (map noise (seq 0 100))).

Definition main (svd : list (list R) ->
                       option (list (list R) * list R * list (list R)))
  (noise : nat -> R) (random2 : R * R) : result (pyval * list R) :=
  br <- BR.__init__ svd script_X (script_Y noise) (1 / 100000) ;;
  br <- BR.fit br (Some (script_Y noise)) random2
               BR.fit_default_method BR.fit_default_iterations ;;
  BR.predict br script_X None.

(** ** The contract of the factorization

    What [np.linalg.svd(X, full_matrices = False)] promises of its three
    results: [X = u diag(d) v], the columns of [u] orthonormal, the rows
    of [v] orthonormal. *)
Definition factorized (n m k : nat) (self : BR.obj) : Prop :=
  well_shaped n m k self /\
  Spec.mul (Spec.mul (BR.u self) (Spec.diagonal (BR.d self))) (BR.v self)
  = BR.X self /\
  Spec.mul (Spec.transpose (BR.u self)) (BR.u self) = Spec.identity k /\
  Spec.mul (BR.v self) (Spec.transpose (BR.v self)) = Spec.identity k.

(** ** Lists, sums and matrices *)

Section LinearAlgebra.

Import np.

Lemma zip_with_length (f : R -> R -> R) (a b : vec) :
  length a = length b -> length (zip_with f a b) = length a.
Proof.
  revert b; induction a as [|x a IH]; intros [|y b] H; simpl in *; try lia.
  rewrite IH; lia.
Qed.

Lemma zip_with_map (f : R -> R -> R) (g h : R -> R) (l : vec) :
  zip_with f (map g l) (map h l) = map (fun t => f (g t) (h t)) l.
Proof.
  induction l as [|x l IH]; simpl; [reflexivity|]. now rewrite IH.
Qed.

Lemma zip_with_map_r (f : R -> R -> R) (h : R -> R) (l : vec) :
  zip_with f l (map h l) = map (fun t => f t (h t)) l.
Proof.
  induction l as [|x l IH]; simpl; [reflexivity|]. now rewrite IH.
Qed.

Lemma zip_with_self (f : R -> R -> R) (l : vec) :
  zip_with f l l = map (fun t => f t t) l.
Proof.
  induction l as [|x l IH]; simpl; [reflexivity|]. now rewrite IH.
Qed.

Lemma zip_with_nth (f : R -> R -> R) (a b : vec) :
  length a = length b ->
  zip_with f a b = map (fun i => f (nth i a 0) (nth i b 0)) (seq 0 (length a)).
Proof.
  revert b; induction a as [|x a IH]; intros [|y b] H; simpl in *;
    try discriminate; [reflexivity|].
  f_equal. rewrite <- seq_shift, map_map. apply IH. lia.
Qed.

Lemma list_as_nth {A : Type} (dflt : A) (l : list A) :
  l = map (fun i => nth i l dflt) (seq 0 (length l)).
Proof.
  induction l as [|x l IH]; simpl; [reflexivity|].
  f_equal. rewrite <- seq_shift, map_map. exact IH.
Qed.

Lemma vdot_big_sum (a b : vec) :
  length a = length b ->
  vdot a b = Spec.big_sum (length a) (fun l => nth l a 0 * nth l b 0).
Proof.
  intros H. unfold vdot, Spec.big_sum. now rewrite (zip_with_nth _ _ _ H).
Qed.

Lemma is_matrix_ncols n m M : is_matrix n m M -> (0 < n)%nat -> ncols M = m.
Proof.
  intros [Hn Hr] Hpos. unfold ncols. destruct M as [|r M]; simpl in *; [lia|].
  now inversion Hr.
Qed.

Lemma is_matrix_nrows n m M : is_matrix n m M -> nrows M = n.
Proof. now intros [Hn _]. Qed.

Lemma is_matrix_row n m M i :
  is_matrix n m M -> (i < n)%nat -> length (nth i M []) = m.
Proof.
  intros [Hn Hr] Hi. rewrite Forall_forall in Hr. apply Hr, nth_In. lia.
Qed.

Lemma mat_is_matrix n m f : is_matrix n m (Spec.mat n m f).
Proof.
  split; unfold Spec.mat.
  - now rewrite length_map, length_seq.
  - apply Forall_forall. intros r Hr. apply in_map_iff in Hr as [i [<- _]].
    now rewrite length_map, length_seq.
Qed.

Lemma mat_ext n m f g :
  (forall i j, (i < n)%nat -> (j < m)%nat -> f i j = g i j) ->
  Spec.mat n m f = Spec.mat n m g.
Proof.
  intros H. unfold Spec.mat. apply map_ext_in. intros i Hi.
  apply map_ext_in. intros j Hj. apply in_seq in Hi, Hj. apply H; lia.
Qed.

Lemma entry_mat n m f i j :
  (i < n)%nat -> (j < m)%nat -> Spec.entry (Spec.mat n m f) i j = f i j.
Proof.
  intros Hi Hj. unfold Spec.entry, Spec.mat.
  rewrite (nth_indep _ [] (map (fun j => f 0%nat j) (seq 0 m)))
    by now rewrite length_map, length_seq.
  rewrite (map_nth (fun i => map (fun j => f i j) (seq 0 m))).
  rewrite seq_nth by assumption. simpl.
  rewrite (nth_indep _ 0 (f i 0%nat)) by now rewrite length_map, length_seq.
  rewrite (map_nth (fun j => f i j)). now rewrite seq_nth.
Qed.

Lemma map_map_mat n m (g : R -> R) f :
  map (map g) (Spec.mat n m f) = Spec.mat n m (fun i j => g (f i j)).
Proof.
  unfold Spec.mat. rewrite map_map. apply map_ext. intros i.
  now rewrite map_map.
Qed.

(** A rectangular matrix is the matrix of its entries. *)
Lemma matrix_as_mat n m M :
  is_matrix n m M -> M = Spec.mat n m (Spec.entry M).
Proof.
  intros HM. destruct HM as [Hn Hr]. unfold Spec.mat, Spec.entry.
  etransitivity; [apply (list_as_nth [] M)|]. rewrite Hn.
  apply map_ext_in. intros i Hi. apply in_seq in Hi.
  etransitivity; [apply (list_as_nth 0 (nth i M []))|].
  rewrite (is_matrix_row n m M i) by (try split; auto; lia). reflexivity.
Qed.

Lemma map_as_nth {A B : Type} (dflt : A) (f : A -> B) (l : list A) :
  map f l = map (fun i => f (nth i l dflt)) (seq 0 (length l)).
Proof.
  etransitivity; [|apply (map_map (fun i => nth i l dflt) f)].
  now rewrite <- (list_as_nth dflt l).
Qed.

(** [M.T] is the transpose, whatever the shape of [M]. *)
Lemma T_spec M : T M = Spec.transpose M.
Proof.
  unfold T, Spec.transpose, Spec.mat, Spec.entry, nrows.
  apply map_ext. intros j. exact (map_as_nth [] (fun r => nth j r 0) M).
Qed.

Lemma diag_spec w : diag w = Spec.diagonal w.
Proof. reflexivity. Qed.

Lemma T_is_matrix n m M :
  is_matrix n m M -> (0 < n)%nat -> is_matrix m n (T M).
Proof.
  intros HM Hn. rewrite T_spec. unfold Spec.transpose.
  rewrite (is_matrix_ncols n m M HM Hn), (is_matrix_nrows n m M HM).
  apply mat_is_matrix.
Qed.

Lemma entry_T n m M i j :
  is_matrix n m M -> (0 < n)%nat -> (i < m)%nat -> (j < n)%nat ->
  Spec.entry (T M) i j = Spec.entry M j i.
Proof.
  intros HM Hn Hi Hj. rewrite T_spec. unfold Spec.transpose.
  rewrite (is_matrix_ncols n m M HM Hn), (is_matrix_nrows n m M HM).
  now rewrite entry_mat.
Qed.

(** Transposing twice gives the matrix back. *)
Lemma T_involutive n m M :
  is_matrix n m M -> (0 < n)%nat -> (0 < m)%nat -> T (T M) = M.
Proof.
  intros HM Hn Hm. pose proof (T_is_matrix n m M HM Hn) as HT.
  rewrite (T_spec (T M)). unfold Spec.transpose.
  rewrite (is_matrix_ncols m n _ HT Hm), (is_matrix_nrows m n _ HT).
  etransitivity; [|symmetry; exact (matrix_as_mat n m M HM)].
  apply mat_ext. intros i j Hi Hj. now apply (entry_T n m).
Qed.

Lemma dot_vv_spec a b :
  length a = length b -> dot_vv a b = Ok (Spec.inner a b).
Proof.
  intros H. unfold dot_vv. rewrite H, Nat.eqb_refl.
  f_equal. now apply vdot_big_sum.
Qed.

Lemma dot_mv_spec n m A x :
  is_matrix n m A -> (0 < n)%nat -> length x = m ->
  dot_mv A x = Ok (Spec.mulv A x).
Proof.
  intros HA Hn Hx. unfold dot_mv.
  rewrite (is_matrix_ncols n m A HA Hn), Hx, Nat.eqb_refl. f_equal.
  unfold Spec.mulv, nrows. rewrite (map_as_nth [] _ A).
  apply map_ext_in. intros i Hi. apply in_seq in Hi.
  destruct HA as [HAn HAr]. rewrite HAn in Hi.
  assert (Hrow : length (nth i A []) = length x).
  { rewrite Hx. apply (is_matrix_row n m A i); [now split | lia]. }
  rewrite (vdot_big_sum _ _ Hrow), Hrow. reflexivity.
Qed.

Lemma mulv_length A x : length (Spec.mulv A x) = nrows A.
Proof. unfold Spec.mulv. now rewrite length_map, length_seq. Qed.

Lemma nth_mulv A x i :
  (i < nrows A)%nat ->
  nth i (Spec.mulv A x) 0 =
  Spec.big_sum (length x) (fun j => Spec.entry A i j * nth j x 0).
Proof.
  intros Hi. unfold Spec.mulv.
  rewrite (nth_indep _ 0
    (Spec.big_sum (length x) (fun j => Spec.entry A 0%nat j * nth j x 0)))
    by now rewrite length_map, length_seq.
  rewrite (map_nth (fun i => Spec.big_sum (length x)
                               (fun j => Spec.entry A i j * nth j x 0))).
  now rewrite seq_nth.
Qed.

Lemma dot_mm_spec n k m A B :
  is_matrix n k A -> is_matrix k m B -> (0 < n)%nat ->
  dot_mm A B = Ok (Spec.mul A B).
Proof.
  intros HA HB Hn. unfold dot_mm.
  rewrite (is_matrix_ncols n k A HA Hn), (is_matrix_nrows k m B HB),
    Nat.eqb_refl.
  f_equal. unfold Spec.mul, Spec.mat, T.
  rewrite (is_matrix_ncols n k A HA Hn).
  rewrite (map_as_nth [] _ A). apply map_ext_in. intros i Hi.
  apply in_seq in Hi. rewrite map_map. apply map_ext_in. intros j Hj.
  assert (Hrow : length (nth i A []) = length (map (fun r => nth j r 0) B)).
  { rewrite length_map. destruct HB as [HBk _]. rewrite HBk.
    apply (is_matrix_row n k A i HA).
    destruct HA as [HAn _]. unfold nrows in Hi. lia. }
  rewrite (vdot_big_sum _ _ Hrow).
  rewrite (is_matrix_row n k A i HA)
    by (destruct HA as [HAn _]; unfold nrows in Hi; lia).
  unfold Spec.big_sum. f_equal. apply map_ext. intros l. unfold Spec.entry.
  f_equal. rewrite <- (map_nth (fun r => nth j r 0) B []).
  destruct j; reflexivity.
Qed.

Lemma mul_is_matrix n k m A B :
  is_matrix n k A -> is_matrix k m B -> (0 < k)%nat ->
  is_matrix n m (Spec.mul A B).
Proof.
  intros HA HB Hk. unfold Spec.mul.
  rewrite (is_matrix_nrows n k A HA), (is_matrix_ncols k m B HB Hk).
  apply mat_is_matrix.
Qed.

Lemma diagonal_is_matrix w : is_matrix (length w) (length w) (Spec.diagonal w).
Proof. apply mat_is_matrix. Qed.

(** Sums over an index range. *)

Lemma big_sum_ext n f g :
  (forall i, (i < n)%nat -> f i = g i) -> Spec.big_sum n f = Spec.big_sum n g.
Proof.
  intros H. unfold Spec.big_sum. f_equal. apply map_ext_in.
  intros i Hi. apply in_seq in Hi. apply H. lia.
Qed.

Lemma big_sum_S n f :
  Spec.big_sum (S n) f = Spec.big_sum n f + f n.
Proof.
  unfold Spec.big_sum. rewrite seq_S, map_app. simpl.
  induction (map f (seq 0 n)) as [|x l IH]; simpl; [ring|].
  rewrite IH. ring.
Qed.

Lemma big_sum_0 f : Spec.big_sum 0 f = 0.
Proof. reflexivity. Qed.

Lemma big_sum_plus n f g :
  Spec.big_sum n (fun i => f i + g i) = Spec.big_sum n f + Spec.big_sum n g.
Proof.
  induction n as [|n IH]; [rewrite !big_sum_0; ring|].
  rewrite !big_sum_S, IH. ring.
Qed.

Lemma big_sum_scal_l n c f :
  c * Spec.big_sum n f = Spec.big_sum n (fun i => c * f i).
Proof.
  induction n as [|n IH]; [rewrite !big_sum_0; ring|].
  rewrite !big_sum_S, <- IH. ring.
Qed.

Lemma big_sum_scal_r n c f :
  Spec.big_sum n f * c = Spec.big_sum n (fun i => f i * c).
Proof.
  induction n as [|n IH]; [rewrite !big_sum_0; ring|].
  rewrite !big_sum_S, <- IH. ring.
Qed.

Lemma big_sum_exchange n m (f : nat -> nat -> R) :
  Spec.big_sum n (fun i => Spec.big_sum m (fun j => f i j)) =
  Spec.big_sum m (fun j => Spec.big_sum n (fun i => f i j)).
Proof.
  induction n as [|n IH].
  - rewrite big_sum_0. induction m as [|m IHm]; [reflexivity|].
    rewrite big_sum_S, <- IHm, big_sum_0. ring.
  - rewrite big_sum_S, IH, <- big_sum_plus.
    apply big_sum_ext. intros j _. now rewrite big_sum_S.
Qed.

(** A product of matrices applied to a vector. *)
Lemma mulv_mul n k m A B x :
  is_matrix n k A -> is_matrix k m B -> length x = m ->
  (0 < n)%nat -> (0 < k)%nat ->
  Spec.mulv (Spec.mul A B) x = Spec.mulv A (Spec.mulv B x).
Proof.
  intros HA HB Hx Hn Hk.
  pose proof (mul_is_matrix n k m A B HA HB Hk) as HAB.
  unfold Spec.mulv at 1 2.
  rewrite (is_matrix_nrows n m _ HAB), (is_matrix_nrows n k _ HA).
  apply map_ext_in. intros i Hi. apply in_seq in Hi.
  rewrite mulv_length, (is_matrix_nrows k m _ HB), Hx.
  transitivity (Spec.big_sum m (fun l =>
                  Spec.big_sum k (fun j =>
                    Spec.entry A i j * Spec.entry B j l * nth l x 0))).
  - apply big_sum_ext. intros l Hl. unfold Spec.mul.
    rewrite (is_matrix_nrows n k _ HA), (is_matrix_ncols k m _ HB Hk),
      (is_matrix_ncols n k _ HA Hn).
    rewrite entry_mat by lia. apply big_sum_scal_r.
  - rewrite big_sum_exchange. apply big_sum_ext. intros j Hj.
    rewrite nth_mulv by now rewrite (is_matrix_nrows k m _ HB).
    rewrite Hx, big_sum_scal_l. apply big_sum_ext. intros l _. ring.
Qed.

End LinearAlgebra.

(** ** Properties of the class *)

Local Open Scope string_scope.

(** *** Which exceptions the numerical steps can raise *)

Lemma dot_mm_raises A B e : np.dot_mm A B = Raise e -> e = ValueError.
Proof.
  unfold np.dot_mm. destruct (Nat.eqb _ _); intros H; now inversion H.
Qed.

Lemma dot_mv_raises A x e : np.dot_mv A x = Raise e -> e = ValueError.
Proof.
  unfold np.dot_mv. destruct (Nat.eqb _ _); intros H; now inversion H.
Qed.

Lemma dot_vv_raises a b e : np.dot_vv a b = Raise e -> e = ValueError.
Proof.
  unfold np.dot_vv. destruct (Nat.eqb _ _); intros H; now inversion H.
Qed.

Lemma dot_vv_self a : np.dot_vv a a = Ok (np.vdot a a).
Proof. unfold np.dot_vv. now rewrite Nat.eqb_refl. Qed.

Lemma broadcast_raises f a b e :
  np.broadcast f a b = Raise e -> e = ValueError.
Proof.
  unfold np.broadcast. destruct (Nat.eqb _ _); [discriminate|].
  destruct a as [|x [|y a]]; destruct b as [|z [|w b]];
    intros H; now inversion H.
Qed.

Lemma iteration_mean_raises self Yg a b e :
  BR.iteration_mean self Yg a b = Raise e ->
  e = ValueError \/ e = NameError.
Proof.
  unfold BR.iteration_mean.
  destruct (np.dot_mm _ _) as [p1|e1] eqn:E1; simpl.
  2:{ intros H; inversion H; subst. left. eapply dot_mm_raises; eauto. }
  destruct Yg as [y|]; simpl.
  2:{ intros H; inversion H. now right. }
  destruct (np.dot_mv (np.T (BR.u self)) y) as [p2|e2] eqn:E2; simpl.
  2:{ intros H; inversion H; subst. left. eapply dot_mv_raises; eauto. }
  intros H. left. eapply dot_mv_raises; eauto.
Qed.

Lemma em_update_raises self Yg mu st e :
  BR.em_update self Yg mu st = Raise e -> e = ValueError \/ e = NameError.
Proof.
  unfold BR.em_update. rewrite dot_vv_self. simpl.
  destruct Yg as [y|]; simpl.
  2:{ intros H; inversion H. now right. }
  destruct (np.dot_mv _ _) as [xm|e1] eqn:E1; simpl.
  2:{ intros H; inversion H; subst. left. eapply dot_mv_raises; eauto. }
  destruct (np.broadcast _ _ _) as [er|e2] eqn:E2; simpl.
  2:{ intros H; inversion H; subst. left. eapply broadcast_raises; eauto. }
  rewrite dot_vv_self. simpl. discriminate.
Qed.

Lemma em_update_keeps_error self Yg mu st st' :
  BR.em_update self Yg mu st = Ok st' -> BR.l_error st' = BR.l_error st.
Proof.
  unfold BR.em_update. rewrite dot_vv_self. simpl.
  destruct Yg as [y|]; simpl; [|discriminate].
  destruct (np.dot_mv _ _) as [xm|e1]; simpl; [|discriminate].
  destruct (np.broadcast _ _ _) as [er|e2]; simpl; [|discriminate].
  rewrite dot_vv_self. simpl. intros H. now inversion H.
Qed.

(** With the local [error] unbound, the log likelihood cannot be computed. *)
Lemma log_likelihood_unbound self mu st :
  BR.l_error st = None ->
  BR.log_likelihood self mu st = Raise UnboundLocalError.
Proof.
  intros H. unfold BR.log_likelihood. rewrite dot_vv_self, H. reflexivity.
Qed.

(** An iteration that does not take the fixed-point branch, entered with
    [error] unbound, raises. *)
Lemma iteration_without_error self Yg method i st :
  String.eqb method "fixed-point" = false ->
  BR.l_error st = None ->
  exists e, BR.iteration self Yg method i st = Raise e /\
            In e [ValueError; NameError; UnboundLocalError].
Proof.
  intros Hm Herr. unfold BR.iteration. rewrite Hm.
  destruct (BR.iteration_mean self Yg _ _) as [mu|e] eqn:Emu; simpl.
  2:{ exists e. split; [reflexivity|].
      destruct (iteration_mean_raises _ _ _ _ _ Emu) as [-> | ->];
        simpl; auto. }
  destruct (String.eqb method "EM").
  - destruct (BR.em_update self Yg mu st) as [st'|e] eqn:Eem; simpl.
    + rewrite log_likelihood_unbound.
      * exists UnboundLocalError. simpl; auto.
      * now rewrite (em_update_keeps_error _ _ _ _ _ Eem).
    + exists e. split; [reflexivity|].
      destruct (em_update_raises _ _ _ _ _ Eem) as [-> | ->]; simpl; auto.
  - simpl. rewrite log_likelihood_unbound by exact Herr.
    exists UnboundLocalError. simpl; auto.
Qed.

Lemma evidence_approx_without_error self Yg rnd (p : positive) method :
  String.eqb method "fixed-point" = false ->
  exists e, BR._evidence_approx self Yg rnd (Z.pos p) method = Raise e /\
            In e [ValueError; NameError; UnboundLocalError].
Proof.
  intros Hm. unfold BR._evidence_approx. destruct rnd as [a b].
  destruct (Z.to_nat (Z.pos p)) as [|k] eqn:Ek; [lia|]. simpl.
  destruct (iteration_without_error self Yg method 0
              (BR.Locals a b None None None []) Hm eq_refl) as [e [He Hin]].
  rewrite He. simpl. now exists e.
Qed.

(** *** The example models

    Each is what the constructor builds from its data when the
    factorization returns the stated factors, and the factors are a
    singular value decomposition of the centered design matrix. *)

Lemma init_br1 :
  BR.__init__ (svd_returning (u1, d1, v1)) X1 Y1 (1 / 100000) = Ok br1.
Proof. np_eval. entrywise. Qed.

Lemma init_br2 :
  BR.__init__ (svd_returning (u2, d2, v2)) X2 Y2 (1 / 100000) = Ok br2.
Proof. np_eval. entrywise. Qed.

Lemma br2_factorization :
  Spec.mul (Spec.mul u2 (Spec.diagonal d2)) v2 = X2 /\
  Spec.mul (Spec.transpose u2) u2 = Spec.identity 2 /\
  Spec.mul v2 (Spec.transpose v2) = Spec.identity 2.
Proof. repeat split; np_eval; entrywise. Qed.

Lemma init_br3 :
  BR.__init__ (svd_returning (u3, d3, v3)) X3 Y3 (1 / 100000) = Ok br3.
Proof. np_eval. entrywise. Qed.

Lemma br3_factorization :
  Spec.mul (Spec.mul u3 (Spec.diagonal d3)) v3 = X3 /\
  Spec.mul (Spec.transpose u3) u3 = Spec.identity 3 /\
  Spec.mul v3 (Spec.transpose v3) = Spec.identity 3.
Proof. repeat split; np_eval; entrywise. Qed.

Lemma br3_signed_factorization s0 s1 s2 :
  Spec.mul (Spec.mul (u3_signed s0 s1 s2) (Spec.diagonal d3))
           (v3_signed s0 s1 s2) = X3 /\
  Spec.mul (Spec.transpose (u3_signed s0 s1 s2)) (u3_signed s0 s1 s2)
  = Spec.identity 3 /\
  Spec.mul (v3_signed s0 s1 s2) (Spec.transpose (v3_signed s0 s1 s2))
  = Spec.identity 3.
Proof.
  destruct s0, s1, s2; repeat split; np_eval; entrywise.
Qed.

Lemma init_br3_signed s0 s1 s2 :
  BR.__init__
    (svd_returning (u3_signed s0 s1 s2, d3, v3_signed s0 s1 s2))
    X3 Y3 (1 / 100000)
  = Ok (br3_signed s0 s1 s2).
Proof.
  unfold br3_signed. generalize (u3_signed s0 s1 s2) (v3_signed s0 s1 s2).
  intros uu vv. np_eval. entrywise.
Qed.

(** The two branches of [_center]. *)
Lemma _center_Array2 M :
  BR._center (Array2 M)
  = Ok (Array2 (fst (BR._center_2d M)), Array1 (snd (BR._center_2d M))).
Proof. reflexivity. Qed.

Lemma _center_Array1 w :
  BR._center (Array1 w)
  = Ok (Array1 (fst (BR._center_1d w)),
        Scalar (NpFloat (snd (BR._center_1d w)))).
Proof. reflexivity. Qed.

(** *** [fit] *)

(** The name that [fit] looks up is bound nowhere. *)
Lemma getattr_fixed_point_evidence_approx self Yg rnd :
  BR.getattr self Yg rnd "_fixed_point_evidence_approx"
  = Raise AttributeError.
Proof.
  unfold BR.getattr, BR.instance_names.
  destruct (BR.diag_ self); reflexivity.
Qed.

(** C1 (the source fails the claim).  [fit] looks up the attribute
    [_fixed_point_evidence_approx], which neither the class nor the
    instance binds: for every model, method string and iteration cap the
    call raises [AttributeError] before the evidence loop or the posterior
    parameters are computed. *)
Theorem fit_raises_AttributeError self Yg rnd method iterations :
  BR.fit self Yg rnd method iterations = Raise AttributeError.
Proof.
  unfold BR.fit. now rewrite getattr_fixed_point_evidence_approx.
Qed.

(** *** [predict] *)

(** C10.  The optional second argument of [predict] does not influence
    the result: two calls on one model and one query that differ in that
    argument only return the same means and variances (or raise the same
    exception). *)
Theorem predict_ignores_Y self x (y1 y2 : option pyval) :
  BR.predict self x y1 = BR.predict self x y2.
Proof. reflexivity. Qed.

(** C5 (counterexample).  On the model that the constructor builds from
    the example data, on which [fit] has not run, [predict] raises
    [ZeroDivisionError], which is not [NotFittedError]. *)
Lemma predict_fresh_not_NotFittedError :
  BR.__init__ (svd_returning (u1, d1, v1)) X1 Y1 (1 / 100000) = Ok br1 /\
  BR.predict br1 [[3]] None = Raise ZeroDivisionError /\
  ZeroDivisionError <> NotFittedError.
Proof.
  split; [np_eval; entrywise|]. split; [reflexivity | discriminate].
Qed.

(** C5 (amended).  For every model that the constructor returns, and on
    which nothing has stored hyperparameters since, [predict] raises
    [ZeroDivisionError] for every query: [alpha / beta] divides the
    integer 0 by the integer 0.  No check of a fitted state is made. *)
Theorem predict_fresh_ZeroDivisionError svd X0 Y0 t self x y :
  BR.__init__ svd X0 Y0 t = Ok self ->
  BR.predict self x y = Raise ZeroDivisionError.
Proof.
  unfold BR.__init__. simpl.
  destruct (svd _) as [[[u0 d0] v0]|]; [|discriminate].
  intros H. inversion H. reflexivity.
Qed.

Lemma predict_fresh_ZeroDivisionError_witness :
  exists self,
    BR.__init__ (svd_returning (u1, d1, v1)) X1 Y1 (1 / 100000) = Ok self /\
    BR.predict self [[3]] None = Raise ZeroDivisionError.
Proof.
  eexists. split; [reflexivity|].
  apply (predict_fresh_ZeroDivisionError
           (svd_returning (u1, d1, v1)) X1 Y1 (1 / 100000)).
  reflexivity.
Defined.

(** *** [__init__] *)

(** C4 (counterexample).  The scenario of the specification: [X] has 100
    rows and [Y] has 99 elements.  Whatever the factorization does, the
    constructor does not raise [ShapeError]. *)
Lemma init_100_99_no_ShapeError :
  exists X0 Y0,
    np.nrows X0 = 100%nat /\ length Y0 = 99%nat /\
    forall svd t, BR.__init__ svd X0 Y0 t <> Raise ShapeError.
Proof.
  exists (repeat [1] 100), (repeat 1 99).
  split; [apply repeat_length|]. split; [apply repeat_length|].
  intros svd t. unfold BR.__init__.
  destruct (BR._center_2d _) as [Xc muX], (BR._center_1d _) as [Yc muY].
  destruct (svd Xc) as [[[u0 d0] v0]|]; discriminate.
Qed.

(** C4 (amended).  The constructor compares no row counts.  For every [X]
    and [Y], whether or not their row counts agree, it centers both and
    factorizes the centered [X]; it raises exactly when the factorization
    does ([LinAlgError]), and returns the model otherwise. *)
Theorem init_outcome svd X0 Y0 t :
  (svd (fst (BR._center_2d X0)) = None /\
   BR.__init__ svd X0 Y0 t = Raise LinAlgError) \/
  (exists u0 d0 v0,
     svd (fst (BR._center_2d X0)) = Some (u0, d0, v0) /\
     BR.__init__ svd X0 Y0 t =
       Ok (BR.Build (fst (BR._center_2d X0)) (snd (BR._center_2d X0))
                    (fst (BR._center_1d Y0)) (snd (BR._center_1d Y0)) t
                    u0 d0 v0 (PyInt 0) (PyInt 0)
                    (Scalar (PyInt 0)) (Scalar (PyInt 0)) None)).
Proof.
  unfold BR.__init__. simpl.
  destruct (svd _) as [[[u0 d0] v0]|].
  - right. now exists u0, d0, v0.
  - now left.
Qed.

(** *** The method string *)

(** C6 (counterexample).  The default of [fit]'s own parameter,
    ["fixed_point"], is neither ["EM"] nor ["fixed-point"]; [fit] called
    with it raises [AttributeError], which is not [InvalidArgument]. *)
Lemma fit_unrecognised_not_InvalidArgument :
  BR.fit_default_method <> "EM" /\
  BR.fit_default_method <> "fixed-point" /\
  (forall self Yg rnd iterations,
     BR.fit self Yg rnd BR.fit_default_method iterations
     = Raise AttributeError) /\
  AttributeError <> InvalidArgument.
Proof.
  repeat split; try discriminate.
  intros. unfold BR.fit. now rewrite getattr_fixed_point_evidence_approx.
Qed.

(** C6 (amended).  For every method string other than ["EM"] and
    ["fixed-point"] and every iteration cap of at least 1, [fit] does not
    complete, and neither does the evidence loop run on its own; the
    exception is one of the interpreter's or numpy's, never
    [InvalidArgument].  The method string is not validated: in the loop no
    branch is taken, and the first log likelihood reads the unbound
    residual. *)
Theorem unrecognised_method_fails self Yg rnd method iterations :
  method <> "EM" -> method <> "fixed-point" -> (0 < iterations)%Z ->
  (exists e, BR.fit self Yg rnd method iterations = Raise e /\
             e <> InvalidArgument) /\
  (exists e, BR._evidence_approx self Yg rnd iterations method = Raise e /\
             In e [ValueError; NameError; UnboundLocalError]).
Proof.
  intros _ Hfp Hpos. split.
  - exists AttributeError. split; [|discriminate].
    unfold BR.fit. now rewrite getattr_fixed_point_evidence_approx.
  - destruct iterations as [|p|p]; try lia.
    apply evidence_approx_without_error. now apply String.eqb_neq.
Qed.

Lemma unrecognised_method_fails_witness :
  (exists e, BR.fit br1 (Some Y1) (1 / 2, 1 / 2) "fixed_point" 100
             = Raise e /\ e <> InvalidArgument) /\
  (exists e, BR._evidence_approx br1 (Some Y1) (1 / 2, 1 / 2) 100
               "fixed_point" = Raise e /\
             In e [ValueError; NameError; UnboundLocalError]).
Proof.
  apply (unrecognised_method_fails br1 (Some Y1) (1 / 2, 1 / 2)
           "fixed_point" 100); [discriminate | discriminate | reflexivity].
Defined.

(** *** The evidence loop *)

(** C8 (the source fails the claim).  Under ["EM"] no log-evidence score
    is ever computed: the EM branch binds its residual to [err], the score
    reads [error], and with an iteration cap of at least 1 the first
    iteration raises.  On the example data, with the name [Y] bound in the
    module, the exception is [UnboundLocalError]. *)
Theorem em_never_scores :
  (forall self Yg rnd (p : positive),
     exists e, BR._evidence_approx self Yg rnd (Z.pos p) "EM" = Raise e /\
               In e [ValueError; NameError; UnboundLocalError]) /\
  BR._evidence_approx br1 (Some Y1) (1 / 2, 1 / 2) 100 "EM"
  = Raise UnboundLocalError.
Proof.
  split.
  - intros. now apply evidence_approx_without_error.
  - np_eval. reflexivity.
Qed.

(** C2 (the source fails the claim).  The posterior mean of an iteration
    is computed from the module-level name [Y], not from the centered
    response that the model stores.  On the example model, whose stored
    response is [[2; 2; -2; -2]]: the mean from the stored response would
    be [8/5]; with another vector bound to [Y] the iteration computes [0];
    with [Y] unbound it raises [NameError]; and the EM residual is taken
    from the module-level vector as well. *)
Theorem evidence_approx_reads_module_Y :
  BR.iteration_mean br1 (Some (BR.Y br1)) 1 1 = Ok [8 / 5] /\
  BR.iteration_mean br1 (Some [1; -1; 0; 0]) 1 1 = Ok [0] /\
  BR.iteration_mean br1 None 1 1 = Raise NameError /\
  BR.em_update br1 (Some [1; -1; 0; 0]) [0]
               (BR.Locals 1 1 None None None [])
  = Ok (BR.Locals (1 / (1 / 5)) (4 / (2 + 4 / 9)) (Some [0]) None
                  (Some [1; -1; 0; 0]) []).
Proof.
  repeat split; np_eval; entrywise.
Qed.

(** *** Iterations on well-shaped models *)

Lemma mapM_map {A B : Type} (f : A -> result B) (g : A -> B) (l : list A) :
  (forall a, In a l -> f a = Ok (g a)) -> mapM f l = Ok (map g l).
Proof.
  induction l as [|a l IH]; intros H; simpl; [reflexivity|].
  rewrite (H a) by now left. simpl.
  rewrite IH by (intros; apply H; now right). reflexivity.
Qed.

Lemma sq_norm_vdot w : np.vdot w w = Spec.sq_norm w.
Proof.
  rewrite vdot_big_sum by reflexivity. unfold Spec.sq_norm, Spec.big_sum.
  f_equal. apply map_ext. intros j. simpl. ring.
Qed.

Lemma mulv_rows n m A x :
  is_matrix n m A -> length x = m ->
  Spec.mulv A x = map (fun row => Spec.inner row x) A.
Proof.
  intros HA Hx. unfold Spec.mulv, np.nrows.
  rewrite (map_as_nth [] (fun row => Spec.inner row x) A).
  apply map_ext_in. intros i Hi. apply in_seq in Hi.
  unfold Spec.inner, Spec.entry.
  rewrite (is_matrix_row n m A i HA) by (destruct HA; lia). now rewrite Hx.
Qed.

(** The mean of an iteration on a well-shaped model with a module-level
    [Y] of the right length. *)
Lemma iteration_mean_ok n m k self Yg a b :
  well_shaped n m k self -> length Yg = n ->
  exists mu, BR.iteration_mean self (Some Yg) a b = Ok mu /\ length mu = m.
Proof.
  intros (Hn & Hm & Hk & HX & HY & Hu & Hd & Hv) HYg.
  unfold BR.iteration_mean.
  set (w := np.zip_with Rdiv _ _).
  assert (Hw : length w = k).
  { unfold w. rewrite zip_with_length; [exact Hd|].
    now rewrite !length_map. }
  pose proof (T_is_matrix k m _ Hv Hk) as HTv.
  pose proof (T_is_matrix n k _ Hu Hn) as HTu.
  pose proof (diagonal_is_matrix w) as HD. rewrite Hw in HD.
  change (Spec.diagonal w) with (np.diag w) in HD.
  rewrite (dot_mm_spec m k k _ _ HTv HD Hm). simpl.
  rewrite (dot_mv_spec k n _ _ HTu Hk HYg). simpl.
  pose proof (mul_is_matrix m k k _ _ HTv HD Hk) as Hp1.
  rewrite (dot_mv_spec m k _ _ Hp1 Hm).
  - eexists. split; [reflexivity|].
    rewrite mulv_length. now apply is_matrix_nrows in Hp1.
  - rewrite mulv_length. now apply is_matrix_nrows in HTu.
Qed.

Lemma gamma_spec d alpha beta :
  np.sum (np.zip_with Rdiv
            (map (fun t => beta * t) (map (fun t => t ^ 2) d))
            (map (fun t => t + alpha)
               (map (fun t => beta * t) (map (fun t => t ^ 2) d))))
  = Spec.gamma d alpha beta.
Proof.
  unfold Spec.gamma. rewrite !map_map.
  rewrite (zip_with_map Rdiv (fun t => beta * t ^ 2)
             (fun t => beta * t ^ 2 + alpha) d).
  reflexivity.
Qed.

Lemma residual_spec n m A y mu :
  is_matrix n m A -> (0 < n)%nat -> length y = n -> length mu = m ->
  exists resid,
    np.broadcast Rminus y (Spec.mulv A mu) = Ok resid /\
    np.vdot resid resid = Spec.rss A y mu.
Proof.
  intros HA Hn Hy Hmu.
  assert (Hlen : length y = length (Spec.mulv A mu)).
  { rewrite mulv_length. apply is_matrix_nrows in HA. congruence. }
  unfold np.broadcast. rewrite Hlen, Nat.eqb_refl.
  eexists. split; [reflexivity|].
  unfold np.vdot. rewrite zip_with_self, (zip_with_nth _ _ _ Hlen), map_map.
  unfold Spec.rss, Spec.big_sum. f_equal.
  apply map_ext. intros i. simpl. ring.
Qed.

(** The fixed-point branch on a well-shaped model. *)
Lemma fixed_point_update_spec n m k self mu st :
  well_shaped n m k self -> length mu = m ->
  exists resid,
    BR.fixed_point_update self mu st =
    Ok (BR.Locals
          (Spec.gamma (BR.d self) (BR.l_alpha st) (BR.l_beta st)
           / Spec.sq_norm mu)
          ((INR n - Spec.gamma (BR.d self) (BR.l_alpha st) (BR.l_beta st))
           / Spec.rss (BR.X self) (BR.Y self) mu)
          (Some mu) (Some resid) (BR.l_err st) (BR.log_likes st)) /\
    np.vdot resid resid = Spec.rss (BR.X self) (BR.Y self) mu.
Proof.
  intros (Hn & Hm & Hk & HX & HY & Hu & Hd & Hv) Hmu.
  unfold BR.fixed_point_update.
  rewrite gamma_spec, dot_vv_self, sq_norm_vdot. simpl.
  rewrite (dot_mv_spec n m _ _ HX Hn Hmu). simpl.
  destruct (residual_spec n m _ _ _ HX Hn HY Hmu) as [resid [Hb Hr]].
  rewrite Hb. simpl. rewrite dot_vv_self, Hr. simpl.
  rewrite (is_matrix_nrows n m _ HX). now exists resid.
Qed.

(** The log likelihood, once [error] is bound. *)
Lemma log_likelihood_spec self mu st resid :
  BR.l_error st = Some resid ->
  BR.log_likelihood self mu st =
  Ok (Spec.log_evidence (np.nrows (BR.X self)) (np.ncols (BR.X self))
        (BR.d self) (BR.l_alpha st) (BR.l_beta st)
        (Spec.sq_norm mu) (np.vdot resid resid)).
Proof.
  intros H. unfold BR.log_likelihood.
  rewrite dot_vv_self, H. simpl. rewrite dot_vv_self. simpl.
  unfold Spec.log_evidence. rewrite !map_map, sq_norm_vdot. reflexivity.
Qed.

(** The score that an iteration of the fixed-point variant appends: the
    log evidence of section 4.3 at the updated [alpha] and [beta], with
    the iteration's mean and residuals. *)
Lemma fixed_point_iteration_score n m k self Yg i st :
  well_shaped n m k self -> length Yg = n ->
  exists mu st' brk,
    BR.iteration self (Some Yg) "fixed-point" i st = Ok (st', brk) /\
    BR.l_mu st' = Some mu /\
    BR.log_likes st' =
      (BR.log_likes st ++
       [Spec.log_evidence n m (BR.d self) (BR.l_alpha st') (BR.l_beta st')
          (Spec.sq_norm mu) (Spec.rss (BR.X self) (BR.Y self) mu)])%list.
Proof.
  intros Hws HYg.
  destruct (iteration_mean_ok n m k self Yg (BR.l_alpha st) (BR.l_beta st)
              Hws HYg) as [mu [Hmu Hlen]].
  destruct (fixed_point_update_spec n m k self mu st Hws Hlen)
    as [resid [Hfp Hrss]].
  destruct Hws as (Hn & Hm & Hk & HX & _).
  exists mu. unfold BR.iteration. rewrite Hmu. simpl bind.
  change (String.eqb "fixed-point" "fixed-point") with true. cbv iota.
  rewrite Hfp. simpl bind.
  erewrite (log_likelihood_spec self mu _ resid) by reflexivity. simpl bind.
  eexists. eexists. split; [reflexivity|]. split; [reflexivity|].
  simpl. rewrite Hrss, (is_matrix_nrows n m _ HX),
    (is_matrix_ncols n m _ HX Hn). reflexivity.
Qed.

(** C7.  An iteration of the fixed-point variant on a well-shaped model:
    with [mu] the posterior mean of the iteration and [gamma] the sum over
    the singular values [d] of [beta d^2 / (beta d^2 + alpha)] at the
    current [alpha] and [beta], the iteration completes and leaves
    [alpha = gamma / |mu|^2] and [beta = (n - gamma) / rss], where [rss]
    is the sum of squared residuals between the stored centered response
    and the design matrix applied to [mu]. *)
Theorem fixed_point_iteration n m k self Yg i st :
  well_shaped n m k self -> length Yg = n ->
  exists mu st' brk,
    BR.iteration_mean self (Some Yg) (BR.l_alpha st) (BR.l_beta st) = Ok mu /\
    BR.iteration self (Some Yg) "fixed-point" i st = Ok (st', brk) /\
    BR.l_mu st' = Some mu /\
    BR.l_alpha st' =
      Spec.gamma (BR.d self) (BR.l_alpha st) (BR.l_beta st)
      / Spec.sq_norm mu /\
    BR.l_beta st' =
      (INR n - Spec.gamma (BR.d self) (BR.l_alpha st) (BR.l_beta st))
      / Spec.rss (BR.X self) (BR.Y self) mu.
Proof.
  intros Hws HYg.
  destruct (iteration_mean_ok n m k self Yg (BR.l_alpha st) (BR.l_beta st)
              Hws HYg) as [mu [Hmu Hlen]].
  destruct (fixed_point_update_spec n m k self mu st Hws Hlen)
    as [resid [Hfp _]].
  exists mu. unfold BR.iteration. rewrite Hmu. simpl bind.
  change (String.eqb "fixed-point" "fixed-point") with true. cbv iota.
  rewrite Hfp. simpl bind.
  erewrite (log_likelihood_spec self mu _ resid) by reflexivity. simpl bind.
  eexists. eexists. split; [reflexivity|]. split; [reflexivity|].
  simpl. repeat split.
Qed.

Lemma br1_well_shaped : well_shaped 4 1 1 br1.
Proof.
  unfold well_shaped, is_matrix. simpl.
  repeat split; try lia; repeat constructor.
Qed.

Lemma fixed_point_iteration_witness :
  exists mu st' brk,
    BR.iteration_mean br1 (Some Y1) (1 / 2) (1 / 2) = Ok mu /\
    BR.iteration br1 (Some Y1) "fixed-point" 0
                 (BR.Locals (1 / 2) (1 / 2) None None None [])
    = Ok (st', brk) /\
    BR.l_mu st' = Some mu /\
    BR.l_alpha st' = Spec.gamma (BR.d br1) (1 / 2) (1 / 2) / Spec.sq_norm mu /\
    BR.l_beta st' =
      (INR 4 - Spec.gamma (BR.d br1) (1 / 2) (1 / 2))
      / Spec.rss (BR.X br1) (BR.Y br1) mu.
Proof.
  apply (fixed_point_iteration 4 1 1 br1 Y1 0
           (BR.Locals (1 / 2) (1 / 2) None None None [])).
  - exact br1_well_shaped.
  - reflexivity.
Defined.

(** *** [_weights_posterior_params] *)

(** What [_weights_posterior_params] returns on a well-shaped model with
    float hyperparameters: the posterior mean of section 4.4, and a
    precision in which [alpha] is added to every entry. *)
Lemma weights_posterior_params_spec n m k self a b :
  well_shaped n m k self ->
  BR._weights_posterior_params self (NpFloat a) (NpFloat b) =
  Ok (BR.set_diag self (posterior_weights (BR.d self) (a / b)),
      (posterior_mean self (a / b),
       precision_all_entries (BR.X self) a b)).
Proof.
  intros (Hn & Hm & Hk & HX & HY & Hu & Hd & Hv).
  unfold BR._weights_posterior_params.
  pose proof (T_is_matrix n m _ HX Hn) as HTX.
  rewrite (dot_mm_spec m n m _ _ HTX HX Hm).
  cbn [bind truediv to_float].
  rewrite map_map, zip_with_map_r.
  change (map (fun dk => dk / (dk ^ 2 + a / b)) (BR.d self))
    with (posterior_weights (BR.d self) (a / b)).
  set (w := posterior_weights (BR.d self) (a / b)).
  assert (Hw : length w = k) by (unfold w, posterior_weights;
                                  now rewrite length_map).
  cbn [BR.set_diag BR.v BR.u BR.Y].
  pose proof (T_is_matrix k m _ Hv Hk) as HTv.
  pose proof (T_is_matrix n k _ Hu Hn) as HTu.
  pose proof (diagonal_is_matrix w) as HD. rewrite Hw in HD.
  change (Spec.diagonal w) with (np.diag w) in HD.
  rewrite (dot_mm_spec m k k _ _ HTv HD Hm). cbn [bind].
  rewrite (dot_mv_spec k n _ _ HTu Hk HY). cbn [bind].
  pose proof (mul_is_matrix m k k _ _ HTv HD Hk) as Hp1.
  rewrite (dot_mv_spec m k _ _ Hp1 Hm)
    by (rewrite mulv_length; now apply is_matrix_nrows in HTu).
  cbn [bind]. f_equal. f_equal. f_equal.
  - unfold posterior_mean, right_factor. rewrite <- !T_spec.
    symmetry. now apply (mulv_mul m k n).
  - unfold precision_all_entries. rewrite <- T_spec.
    pose proof (mul_is_matrix m n m _ _ HTX HX Hn) as HG.
    set (G := Spec.mul (np.T (BR.X self)) (BR.X self)) in *.
    rewrite (is_matrix_ncols n m _ HX Hn).
    unfold Spec.add, Spec.scale.
    rewrite (is_matrix_nrows m m _ HG), (is_matrix_ncols m m _ HG Hm).
    repeat rewrite (is_matrix_nrows m m _ (mat_is_matrix m m _)).
    repeat rewrite (is_matrix_ncols m m _ (mat_is_matrix m m _) Hm).
    rewrite (matrix_as_mat m m G HG) at 1. rewrite !map_map_mat.
    apply mat_ext. intros i j Hi Hj. rewrite !entry_mat by assumption. ring.
Qed.

(** C3 (the source fails the claim).  [beta * X.T X + alpha] adds [alpha]
    to every entry of the matrix.  With two features and
    [alpha = beta = 1] on the example data, the returned precision has
    [alpha] off the diagonal, where [beta X^T X + alpha I] has 0. *)
Theorem posterior_precision_adds_alpha_everywhere :
  BR._weights_posterior_params br2 (NpFloat 1) (NpFloat 1)
  = Ok (BR.set_diag br2 [4 / 17; 2 / 5],
        ([16 / 17; 4 / 5], [[17; 1]; [1; 5]])) /\
  precision_as_written X2 1 1 = [[17; 0]; [0; 5]].
Proof.
  split; np_eval; entrywise.
Qed.

(** *** [_pred_dist_params] *)

(** C9 (counterexample).  On the three-feature example with
    [alpha = beta = 1] and the query row [[1; 0; 0]], whatever the signs
    of the singular vectors in the stored factors, the variance that
    [_pred_dist_params] returns is [1 + (4/325 + 1/145 + 4/37) / 9]; with
    [S = V^T diag(..) V] the formula gives
    [1 + (4/325 + 4/145 + 1/37) / 9]. *)
Lemma predictive_variance_not_as_written :
  (forall s0 s1 s2,
     BR._pred_dist_params (br3_signed s0 s1 s2) (NpFloat 1) (NpFloat 1)
       [[1; 0; 0]] (Array1 [0; 0; 0]) (Scalar (PyInt 0))
     = Ok (Array1 [0], [1 + (4 / 325 + 1 / 145 + 4 / 37) / 9]) /\
     (1 + Spec.quad [1; 0; 0] (S_as_written (br3_signed s0 s1 s2) (1 / 1)))
     / 1
     = 1 + (4 / 325 + 4 / 145 + 1 / 37) / 9) /\
  1 + (4 / 325 + 1 / 145 + 4 / 37) / 9
  <> 1 + (4 / 325 + 4 / 145 + 1 / 37) / 9.
Proof.
  split.
  - intros s0 s1 s2. destruct s0, s1, s2; split; np_eval; entrywise.
  - apply Rgt_not_eq. lra.
Qed.

(** The matrix [S] that [_pred_dist_params] computes. *)
Lemma S_computed k m self r :
  (0 < k)%nat -> (0 < m)%nat ->
  is_matrix k m (BR.v self) -> length (BR.d self) = k ->
  exists p,
    np.dot_mm (np.T (BR.v self))
      (np.diag (map (fun t => 1 / t)
                  (map (fun t => t + r)
                     (map (fun t => t ^ 2) (BR.d self))))) = Ok p /\
    np.dot_mm p (BR.v self) = Ok (S_of self r) /\
    is_matrix m m (S_of self r).
Proof.
  intros Hk Hm Hv Hd.
  assert (Hw : map (fun t => 1 / t)
                 (map (fun t => t + r) (map (fun t => t ^ 2) (BR.d self)))
               = inverse_weights (BR.d self) r)
    by (unfold inverse_weights; now rewrite !map_map).
  rewrite Hw.
  assert (Hlw : length (inverse_weights (BR.d self) r) = k)
    by (unfold inverse_weights; now rewrite length_map).
  pose proof (T_is_matrix k m _ Hv Hk) as HTv.
  pose proof (diagonal_is_matrix (inverse_weights (BR.d self) r)) as HD.
  rewrite Hlw in HD.
  pose proof (mul_is_matrix m k k _ _ HTv HD Hk) as Hp.
  exists (Spec.mul (np.T (BR.v self))
            (Spec.diagonal (inverse_weights (BR.d self) r))).
  split; [now apply (dot_mm_spec m k k) |].
  unfold S_of, right_factor. rewrite <- !T_spec.
  rewrite (T_involutive k m _ Hv Hk Hm).
  split; [now apply (dot_mm_spec m k m) | now apply (mul_is_matrix m k m)].
Qed.

(** C9 (amended).  For a query matrix [x] with rows of [m] entries, a
    posterior mean [w] of length [m] and float hyperparameters [a] and
    [b], [_pred_dist_params] returns, row by row and in the order of the
    rows, the mean [row . w] and the variance [(1 + row S row^T) / b]
    with [S = V diag(1 / (d^2 + a / b)) V^T], [V] being the [m] by [k]
    right factor. *)
Theorem pred_dist_params_spec k m q self a b x w wp :
  (0 < k)%nat -> (0 < m)%nat -> (0 < q)%nat ->
  is_matrix k m (BR.v self) -> length (BR.d self) = k ->
  is_matrix q m x -> length w = m ->
  BR._pred_dist_params self (NpFloat a) (NpFloat b) x (Array1 w) wp =
  Ok (Array1 (map (fun row => Spec.inner row w) x),
      map (fun row => (1 + Spec.quad row (S_of self (a / b))) / b) x).
Proof.
  intros Hk Hm Hq Hv Hd Hx Hw. unfold BR._pred_dist_params, dot_any.
  rewrite (dot_mv_spec q m _ _ Hx Hq Hw). cbn [bind truediv to_float].
  destruct (S_computed k m self (a / b) Hk Hm Hv Hd) as [p [Hp [HS HSm]]].
  rewrite Hp. cbn [bind]. rewrite HS. cbn [bind].
  rewrite (mapM_map _
             (fun row => (1 + Spec.quad row (S_of self (a / b))) / b)).
  - cbn [bind]. now rewrite (mulv_rows q m x w Hx Hw).
  - intros row Hrow.
    assert (Hlen : length row = m).
    { destruct Hx as [_ Hx]. rewrite Forall_forall in Hx. now apply Hx. }
    rewrite (dot_mv_spec m m _ _ HSm Hm Hlen). cbn [bind].
    rewrite dot_vv_spec; [reflexivity|].
    rewrite mulv_length. apply is_matrix_nrows in HSm. congruence.
Qed.

Lemma pred_dist_params_spec_witness :
  BR._pred_dist_params br3 (NpFloat 1) (NpFloat 1) [[1; 0; 0]; [0; 1; 0]]
    (Array1 [1; 2; 3]) (Scalar (PyInt 0)) =
  Ok (Array1 (map (fun row => Spec.inner row [1; 2; 3])
                  [[1; 0; 0]; [0; 1; 0]]),
      map (fun row => (1 + Spec.quad row (S_of br3 (1 / 1))) / 1)
          [[1; 0; 0]; [0; 1; 0]]).
Proof.
  apply (pred_dist_params_spec 3 3 2 br3 1 1); simpl; try lia;
    try reflexivity; unfold is_matrix; simpl; split; try reflexivity;
    repeat constructor.
Defined.

(** ** Further properties of the methods *)

(** *** [_center] *)

Lemma sum_map_minus (c : R) (x : list R) :
  np.sum (map (fun a => a - c) x) = np.sum x - INR (length x) * c.
Proof.
  induction x as [|a x IH].
  - simpl. ring.
  - change (np.sum (map (fun a0 => a0 - c) (a :: x)))
      with (a - c + np.sum (map (fun a0 => a0 - c) x)).
    change (np.sum (a :: x)) with (a + np.sum x).
    rewrite IH. change (length (a :: x)) with (S (length x)).
    rewrite S_INR. ring.
Qed.

Lemma sum_centered (x : list R) :
  np.sum (map (fun a => a - np.mean x) x) = 0.
Proof.
  rewrite sum_map_minus. unfold np.mean. destruct x as [|a x].
  - simpl. ring.
  - field. apply not_0_INR. simpl. lia.
Qed.

Lemma mean_centered (x : list R) :
  np.mean (map (fun a => a - np.mean x) x) = 0.
Proof.
  unfold np.mean at 1. rewrite sum_centered. unfold Rdiv. ring.
Qed.

(** A centered vector sums to zero, keeps its length, and adding the
    returned mean to every entry gives the input back. *)
Theorem center_vector_round_trip (x : list R) :
  np.sum (fst (BR._center_1d x)) = 0 /\
  length (fst (BR._center_1d x)) = length x /\
  map (fun a => a + snd (BR._center_1d x)) (fst (BR._center_1d x)) = x.
Proof.
  unfold BR._center_1d. cbn [fst snd]. split; [apply sum_centered|].
  split; [apply length_map|].
  rewrite map_map. transitivity (map (fun a => a) x); [|apply map_id].
  apply map_ext. intros a. ring.
Qed.

(** Centering a centered vector (of at least one entry) changes
    nothing: its mean is zero. *)
Theorem center_vector_idempotent (x : list R) :
  (0 < length x)%nat ->
  BR._center_1d (fst (BR._center_1d x)) = (fst (BR._center_1d x), 0).
Proof.
  intros _.
  unfold BR._center_1d. cbn [fst]. rewrite mean_centered. f_equal.
  set (c := map _ x). transitivity (map (fun a => a) c); [|apply map_id].
  apply map_ext. intros a. ring.
Qed.

Lemma center_vector_idempotent_witness :
  BR._center_1d (fst (BR._center_1d [5; 5; 1; 1]))
  = (fst (BR._center_1d [5; 5; 1; 1]), 0).
Proof.
  apply (center_vector_idempotent [5; 5; 1; 1]). simpl. lia.
Defined.

Lemma nth_zip_with (f : R -> R -> R) (a b : list R) j :
  length a = length b -> (j < length a)%nat ->
  nth j (np.zip_with f a b) 0 = f (nth j a 0) (nth j b 0).
Proof.
  intros Hlen Hj. rewrite (zip_with_nth f a b Hlen).
  rewrite (nth_indep _ 0 (f (nth 0 a 0) (nth 0 b 0)))
    by now rewrite length_map, length_seq.
  rewrite (map_nth (fun i => f (nth i a 0) (nth i b 0))).
  now rewrite seq_nth.
Qed.

Lemma zip_minus_plus (r mu : list R) :
  length r = length mu ->
  np.zip_with Rplus (np.zip_with Rminus r mu) mu = r.
Proof.
  revert mu. induction r as [|a r IH]; intros [|b mu] H; simpl in *;
    try discriminate; [reflexivity|].
  rewrite IH by lia. f_equal. ring.
Qed.

Lemma big_sum_minus_const n f c :
  Spec.big_sum n (fun i => f i - c) = Spec.big_sum n f - INR n * c.
Proof.
  induction n as [|n IH]; [rewrite !big_sum_0; simpl; ring|].
  rewrite !big_sum_S, IH, S_INR. ring.
Qed.

Lemma mean_axis0_length x : length (BR.mean_axis0 x) = np.ncols x.
Proof.
  unfold BR.mean_axis0, np.T. now rewrite !length_map, length_seq.
Qed.

(** The mean of column [j]. *)
Lemma nth_mean_axis0 n m x j :
  is_matrix n m x -> (0 < n)%nat -> (j < m)%nat ->
  nth j (BR.mean_axis0 x) 0
  = Spec.big_sum n (fun i => Spec.entry x i j) / INR n.
Proof.
  intros Hx Hn Hj. unfold BR.mean_axis0, np.T.
  rewrite (is_matrix_ncols n m x Hx Hn), map_map.
  rewrite (nth_indep _ 0 (np.mean (map (fun r => nth 0 r 0) x)))
    by now rewrite length_map, length_seq.
  rewrite (map_nth (fun j0 => np.mean (map (fun r => nth j0 r 0) x))).
  rewrite seq_nth by assumption. simpl.
  unfold np.mean. rewrite length_map.
  rewrite (map_as_nth [] (fun r => nth j r 0) x).
  destruct Hx as [Hlen _]. rewrite Hlen. reflexivity.
Qed.

Lemma entry_centered n m x i j :
  is_matrix n m x -> (0 < n)%nat -> (i < n)%nat -> (j < m)%nat ->
  Spec.entry (fst (BR._center_2d x)) i j
  = Spec.entry x i j - nth j (BR.mean_axis0 x) 0.
Proof.
  intros Hx Hn Hi Hj. unfold BR._center_2d, Spec.entry. cbn [fst].
  change (@nil R) with (np.zip_with Rminus [] (BR.mean_axis0 x)) at 1.
  rewrite (map_nth (fun r => np.zip_with Rminus r (BR.mean_axis0 x))).
  assert (Hrow : length (nth i x []) = m) by now apply (is_matrix_row n m).
  apply nth_zip_with.
  - now rewrite mean_axis0_length, (is_matrix_ncols n m x Hx Hn).
  - now rewrite Hrow.
Qed.

Lemma centered_column_sum n m x j :
  is_matrix n m x -> (0 < n)%nat -> (j < m)%nat ->
  Spec.big_sum n (fun i => Spec.entry (fst (BR._center_2d x)) i j) = 0.
Proof.
  intros Hx Hn Hj.
  rewrite (big_sum_ext n _
             (fun i => Spec.entry x i j - nth j (BR.mean_axis0 x) 0))
    by (intros i Hi; now apply (entry_centered n m)).
  rewrite big_sum_minus_const, (nth_mean_axis0 n m x j Hx Hn Hj).
  field. apply not_0_INR. lia.
Qed.

(** Centering an [n] by [m] matrix keeps its shape, makes every column
    sum to zero, and adding the returned column means to every row gives
    the input back. *)
Theorem center_matrix_round_trip n m x :
  is_matrix n m x -> (0 < n)%nat ->
  is_matrix n m (fst (BR._center_2d x)) /\
  length (snd (BR._center_2d x)) = m /\
  (forall j, (j < m)%nat ->
     Spec.big_sum n (fun i => Spec.entry (fst (BR._center_2d x)) i j) = 0) /\
  map (fun r => np.zip_with Rplus r (snd (BR._center_2d x)))
      (fst (BR._center_2d x)) = x.
Proof.
  intros Hx Hn.
  assert (Hmu : length (BR.mean_axis0 x) = m)
    by now rewrite mean_axis0_length, (is_matrix_ncols n m x Hx Hn).
  assert (Hrows : forall r, In r x -> length r = length (BR.mean_axis0 x)).
  { intros r Hr. destruct Hx as [_ Hx]. rewrite Forall_forall in Hx.
    rewrite Hmu. now apply Hx. }
  split; [|split; [|split]].
  - unfold BR._center_2d. cbn [fst]. destruct Hx as [Hlen Hall]. split.
    + now rewrite length_map.
    + apply Forall_forall. intros r Hr.
      apply in_map_iff in Hr as [r0 [<- Hr0]].
      rewrite zip_with_length by now apply Hrows.
      rewrite Forall_forall in Hall. now apply Hall.
  - exact Hmu.
  - intros j Hj. now apply (centered_column_sum n m).
  - unfold BR._center_2d. cbn [fst snd]. rewrite map_map.
    transitivity (map (fun r => r) x); [|apply map_id].
    apply map_ext_in. intros r Hr. apply zip_minus_plus. now apply Hrows.
Qed.

Lemma center_matrix_round_trip_witness :
  is_matrix 4 2 (fst (BR._center_2d [[1; 2]; [3; 4]; [5; 6]; [7; 8]])) /\
  length (snd (BR._center_2d [[1; 2]; [3; 4]; [5; 6]; [7; 8]])) = 2%nat /\
  (forall j, (j < 2)%nat ->
     Spec.big_sum 4
       (fun i => Spec.entry
                   (fst (BR._center_2d [[1; 2]; [3; 4]; [5; 6]; [7; 8]])) i j)
     = 0) /\
  map (fun r => np.zip_with Rplus r
                  (snd (BR._center_2d [[1; 2]; [3; 4]; [5; 6]; [7; 8]])))
      (fst (BR._center_2d [[1; 2]; [3; 4]; [5; 6]; [7; 8]]))
  = [[1; 2]; [3; 4]; [5; 6]; [7; 8]].
Proof.
  apply (center_matrix_round_trip 4 2).
  - unfold is_matrix. simpl. split; [reflexivity | repeat constructor].
  - lia.
Defined.

(** *** [_evidence_approx] *)

(** With an iteration cap of zero or less the loop body never runs: the
    call succeeds for every method string, whether or not [Y] is bound,
    and stores the two random draws as the hyperparameters. *)
Theorem evidence_approx_no_iterations self Yg a b max_iter method :
  (max_iter <= 0)%Z ->
  BR._evidence_approx self Yg (a, b) max_iter method
  = Ok (BR.set_hyper self (NpFloat a) (NpFloat b)).
Proof.
  intros H. unfold BR._evidence_approx.
  replace (Z.to_nat max_iter) with 0%nat by lia. reflexivity.
Qed.

Lemma evidence_approx_no_iterations_witness :
  BR._evidence_approx br1 None (1 / 2, 1 / 3) (-1) "EM"
  = Ok (BR.set_hyper br1 (NpFloat (1 / 2)) (NpFloat (1 / 3))).
Proof.
  apply (evidence_approx_no_iterations br1 None (1 / 2) (1 / 3) (-1) "EM").
  lia.
Defined.

(** A successful call changes the two hyperparameters and nothing else,
    and what it stores are floats. *)
Theorem evidence_approx_frame self Yg rnd max_iter method self' :
  BR._evidence_approx self Yg rnd max_iter method = Ok self' ->
  exists a b,
    self' = BR.Build (BR.X self) (BR.mu_X self) (BR.Y self) (BR.mu_Y self)
                     (BR.thresh self) (BR.u self) (BR.d self) (BR.v self)
                     (NpFloat a) (NpFloat b)
                     (BR.w_mu self) (BR.w_beta self) (BR.diag_ self).
Proof.
  unfold BR._evidence_approx. destruct rnd as [a0 b0].
  destruct (BR.for_range _ _ _ _ _ _) as [st|e]; simpl; [|discriminate].
  intros H. inversion H. now exists (BR.l_alpha st), (BR.l_beta st).
Qed.

Lemma evidence_approx_frame_witness :
  exists self',
    BR._evidence_approx br1 (Some Y1) (1 / 2, 1 / 2) 1 "fixed-point"
    = Ok self' /\
    exists a b,
      self' = BR.Build (BR.X br1) (BR.mu_X br1) (BR.Y br1) (BR.mu_Y br1)
                       (BR.thresh br1) (BR.u br1) (BR.d br1) (BR.v br1)
                       (NpFloat a) (NpFloat b)
                       (BR.w_mu br1) (BR.w_beta br1) (BR.diag_ br1).
Proof.
  eexists. split.
  - np_eval. reflexivity.
  - apply (evidence_approx_frame br1 (Some Y1) (1 / 2, 1 / 2) 1
             "fixed-point").
    np_eval. reflexivity.
Defined.

(** With the name [Y] unbound in the module, as it is when the class is
    imported, every call with an iteration cap of at least 1 raises
    [NameError] in its first iteration, whatever the method string. *)
Theorem evidence_approx_Y_unbound k m self rnd max_iter method :
  (0 < k)%nat -> (0 < m)%nat ->
  is_matrix k m (BR.v self) -> length (BR.d self) = k ->
  (0 < max_iter)%Z ->
  BR._evidence_approx self None rnd max_iter method = Raise NameError.
Proof.
  intros Hk Hm Hv Hd Hpos. unfold BR._evidence_approx.
  destruct rnd as [a b].
  destruct (Z.to_nat max_iter) as [|fuel] eqn:E; [lia|].
  cbn [BR.for_range]. unfold BR.iteration, BR.iteration_mean.
  cbn [BR.l_alpha BR.l_beta].
  set (w := np.zip_with Rdiv _ _).
  assert (Hw : length w = k).
  { unfold w. rewrite zip_with_length; [exact Hd|]. now rewrite !length_map. }
  pose proof (T_is_matrix k m _ Hv Hk) as HTv.
  pose proof (diagonal_is_matrix w) as HD. rewrite Hw in HD.
  change (Spec.diagonal w) with (np.diag w) in HD.
  rewrite (dot_mm_spec m k k _ _ HTv HD Hm). reflexivity.
Qed.

Lemma evidence_approx_Y_unbound_witness :
  BR._evidence_approx br3 None (1 / 2, 1 / 2) 100 "fixed-point"
  = Raise NameError.
Proof.
  apply (evidence_approx_Y_unbound 3 3 br3 (1 / 2, 1 / 2) 100 "fixed-point");
    try lia; try reflexivity.
  unfold is_matrix. simpl. split; [reflexivity | repeat constructor].
Defined.







Lemma fixed_point_iteration_score_witness :
  exists mu st' brk,
    BR.iteration br1 (Some Y1) "fixed-point" 0
                 (BR.Locals (1 / 2) (1 / 2) None None None [])
    = Ok (st', brk) /\
    BR.l_mu st' = Some mu /\
    BR.log_likes st' =
      ([] ++
       [Spec.log_evidence 4 1 (BR.d br1) (BR.l_alpha st') (BR.l_beta st')
          (Spec.sq_norm mu) (Spec.rss (BR.X br1) (BR.Y br1) mu)])%list.
Proof.
  apply (fixed_point_iteration_score 4 1 1 br1 Y1 0
           (BR.Locals (1 / 2) (1 / 2) None None None [])).
  - exact br1_well_shaped.
  - reflexivity.
Defined.

(** *** [_weights_posterior_params] *)

Lemma br2_well_shaped : well_shaped 4 2 2 br2.
Proof.
  unfold well_shaped, is_matrix. simpl.
  repeat split; try lia; repeat constructor.
Qed.

Lemma br3_well_shaped : well_shaped 4 3 3 br3.
Proof.
  unfold well_shaped, is_matrix. simpl.
  repeat split; try lia; repeat constructor.
Qed.

(** On a well-shaped model with float hyperparameters the method
    succeeds; it returns the mean [V diag(d / (d^2 + a/b)) U^T y] of the
    stored centered response and the matrix [b X^T X] with [a] added to
    every entry, and the one attribute it writes is [diag]. *)
Theorem posterior_params_formulas n m k self a b :
  well_shaped n m k self ->
  BR._weights_posterior_params self (NpFloat a) (NpFloat b) =
  Ok (BR.set_diag self (posterior_weights (BR.d self) (a / b)),
      (posterior_mean self (a / b),
       precision_all_entries (BR.X self) a b)).
Proof. apply weights_posterior_params_spec. Qed.

Lemma posterior_params_formulas_witness :
  BR._weights_posterior_params br2 (NpFloat 1) (NpFloat 2) =
  Ok (BR.set_diag br2 (posterior_weights (BR.d br2) (1 / 2)),
      (posterior_mean br2 (1 / 2),
       precision_all_entries (BR.X br2) 1 2)).
Proof.
  apply (posterior_params_formulas 4 2 2 br2 1 2).
  unfold well_shaped, is_matrix. simpl.
  repeat split; try lia; repeat constructor.
Defined.

(** Called with the integer hyperparameters that the constructor stores
    (or any integer [alpha] and the integer 0 as [beta]), the method
    raises [ZeroDivisionError]. *)
Theorem posterior_params_int_zero n m self (z : Z) :
  is_matrix n m (BR.X self) -> (0 < n)%nat -> (0 < m)%nat ->
  BR._weights_posterior_params self (PyInt z) (PyInt 0)
  = Raise ZeroDivisionError.
Proof.
  intros HX Hn Hm. unfold BR._weights_posterior_params.
  pose proof (T_is_matrix n m _ HX Hn) as HTX.
  rewrite (dot_mm_spec m n m _ _ HTX HX Hm). reflexivity.
Qed.

Lemma posterior_params_int_zero_witness :
  BR._weights_posterior_params br2 (BR.alpha br2) (BR.beta br2)
  = Raise ZeroDivisionError.
Proof.
  apply (posterior_params_int_zero 4 2 br2 0); try lia.
  unfold is_matrix. simpl. split; [reflexivity | repeat constructor].
Defined.

(** *** [predict] *)

(** A query whose rows do not have as many entries as the stored weight
    mean makes [predict] raise numpy's [ValueError], whatever the
    hyperparameters are. *)
Theorem predict_feature_mismatch q m self w x y :
  BR.w_mu self = Array1 w ->
  is_matrix q m x -> (0 < q)%nat -> length w <> m ->
  BR.predict self x y = Raise ValueError.
Proof.
  intros Hw Hx Hq Hne. unfold BR.predict, BR._pred_dist_params.
  rewrite Hw. unfold dot_any, np.dot_mv.
  rewrite (is_matrix_ncols q m x Hx Hq).
  destruct (Nat.eqb_spec m (length w)) as [E|_]; [congruence | reflexivity].
Qed.

Lemma predict_feature_mismatch_witness :
  BR.predict (BR.set_weights br2 (Array1 [1; 2]) (Array2 [[1; 0]; [0; 1]]))
             [[1; 2; 3]; [4; 5; 6]] None
  = Raise ValueError.
Proof.
  apply (predict_feature_mismatch 2 3 _ [1; 2]).
  - reflexivity.
  - unfold is_matrix. simpl. split; [reflexivity | repeat constructor].
  - lia.
  - simpl. lia.
Defined.

(** *** The script *)

Lemma init_raises_or_returns svd X0 Y0 t :
  BR.__init__ svd X0 Y0 t = Raise LinAlgError \/
  exists br, BR.__init__ svd X0 Y0 t = Ok br.
Proof.
  unfold BR.__init__. simpl.
  destruct (svd _) as [[[u0 d0] v0]|]; [right | now left].
  eexists. reflexivity.
Qed.

(** Run as a script, the module never gets to [predict]: the constructor
    raises [LinAlgError] if the factorization fails, and otherwise
    [br.fit()] raises [AttributeError]. *)
Theorem main_raises svd noise rnd :
  main svd noise rnd = Raise LinAlgError \/
  main svd noise rnd = Raise AttributeError.
Proof.
  unfold main.
  destruct (init_raises_or_returns svd script_X (script_Y noise)
              (1 / 100000))
    as [-> | [br ->]]; [now left | right].
  simpl. unfold BR.fit. now rewrite getattr_fixed_point_evidence_approx.
Qed.

(** *** Matrices applied to vectors *)

Lemma entry_mul n k m A B i j :
  is_matrix n k A -> is_matrix k m B -> (0 < n)%nat -> (0 < k)%nat ->
  (i < n)%nat -> (j < m)%nat ->
  Spec.entry (Spec.mul A B) i j
  = Spec.big_sum k (fun l => Spec.entry A i l * Spec.entry B l j).
Proof.
  intros HA HB Hn Hk Hi Hj. unfold Spec.mul.
  rewrite (is_matrix_nrows n k A HA), (is_matrix_ncols k m B HB Hk),
    (is_matrix_ncols n k A HA Hn).
  now rewrite entry_mat.
Qed.

Lemma entry_transpose n m A i j :
  is_matrix n m A -> (0 < n)%nat -> (i < m)%nat -> (j < n)%nat ->
  Spec.entry (Spec.transpose A) i j = Spec.entry A j i.
Proof.
  intros HA Hn Hi Hj. rewrite <- T_spec. now apply (entry_T n m).
Qed.

Lemma transpose_is_matrix n m A :
  is_matrix n m A -> (0 < n)%nat -> is_matrix m n (Spec.transpose A).
Proof. intros HA Hn. rewrite <- T_spec. now apply T_is_matrix. Qed.

Lemma transpose_involutive n m A :
  is_matrix n m A -> (0 < n)%nat -> (0 < m)%nat ->
  Spec.transpose (Spec.transpose A) = A.
Proof. intros HA Hn Hm. rewrite <- !T_spec. now apply (T_involutive n m). Qed.

Lemma big_sum_zero k : Spec.big_sum k (fun _ => 0) = 0.
Proof.
  induction k as [|k IH]; [apply big_sum_0|]. rewrite big_sum_S, IH. ring.
Qed.

Lemma big_sum_delta k (f : nat -> R) l :
  (l < k)%nat ->
  Spec.big_sum k (fun l' => if Nat.eqb l l' then f l' else 0) = f l.
Proof.
  induction k as [|k IH]; intros Hl; [lia|].
  rewrite big_sum_S. destruct (Nat.eq_dec l k) as [->|Hne].
  - rewrite Nat.eqb_refl.
    rewrite (big_sum_ext k _ (fun _ => 0)).
    + rewrite big_sum_zero. ring.
    + intros i Hi. destruct (Nat.eqb_spec k i); [lia | reflexivity].
  - rewrite IH by lia. destruct (Nat.eqb_spec l k); [lia | ring].
Qed.

Lemma mulv_identity k x :
  length x = k -> Spec.mulv (Spec.identity k) x = x.
Proof.
  intros Hx.
  pose proof (mat_is_matrix k k (fun i j => if Nat.eqb i j then 1 else 0))
    as HI. fold (Spec.identity k) in HI.
  apply (nth_ext _ _ 0 0).
  - now rewrite mulv_length, (is_matrix_nrows k k _ HI).
  - intros i Hi.
    rewrite mulv_length, (is_matrix_nrows k k _ HI) in Hi.
    rewrite nth_mulv by now rewrite (is_matrix_nrows k k _ HI).
    rewrite Hx.
    rewrite (big_sum_ext k _
               (fun j => if Nat.eqb i j then nth j x 0 else 0)).
    + now apply big_sum_delta.
    + intros j Hj. unfold Spec.identity. rewrite entry_mat by assumption.
      destruct (Nat.eqb i j); ring.
Qed.

Lemma mulv_diagonal c x :
  length x = length c ->
  Spec.mulv (Spec.diagonal c) x = np.zip_with Rmult c x.
Proof.
  intros Hx. pose proof (diagonal_is_matrix c) as HD.
  apply (nth_ext _ _ 0 0).
  - rewrite mulv_length, (is_matrix_nrows _ _ _ HD).
    now rewrite zip_with_length.
  - intros i Hi.
    rewrite mulv_length, (is_matrix_nrows _ _ _ HD) in Hi.
    rewrite nth_mulv by now rewrite (is_matrix_nrows _ _ _ HD).
    rewrite nth_zip_with by (auto; lia). rewrite Hx.
    rewrite (big_sum_ext (length c) _
               (fun j => if Nat.eqb i j then nth j c 0 * nth j x 0 else 0)).
    + now apply big_sum_delta.
    + intros j Hj. unfold Spec.diagonal. rewrite entry_mat by assumption.
      destruct (Nat.eqb_spec i j); [subst; ring | ring].
Qed.

(** The transpose of a product, applied to a vector. *)
Lemma mulv_transpose_mul n k m A B z :
  is_matrix n k A -> is_matrix k m B -> length z = n ->
  (0 < n)%nat -> (0 < k)%nat ->
  Spec.mulv (Spec.transpose (Spec.mul A B)) z
  = Spec.mulv (Spec.transpose B) (Spec.mulv (Spec.transpose A) z).
Proof.
  intros HA HB Hz Hn Hk.
  pose proof (mul_is_matrix n k m A B HA HB Hk) as HAB.
  pose proof (transpose_is_matrix n m _ HAB Hn) as HABt.
  pose proof (transpose_is_matrix k m _ HB Hk) as HBt.
  pose proof (transpose_is_matrix n k _ HA Hn) as HAt.
  apply (nth_ext _ _ 0 0).
  - rewrite !mulv_length. apply is_matrix_nrows in HABt, HBt. congruence.
  - intros j Hj.
    rewrite mulv_length, (is_matrix_nrows m n _ HABt) in Hj.
    rewrite !nth_mulv
      by (rewrite ?(is_matrix_nrows m n _ HABt),
            ?(is_matrix_nrows m k _ HBt); assumption).
    rewrite mulv_length, (is_matrix_nrows k n _ HAt), Hz.
    transitivity (Spec.big_sum n (fun i =>
                    Spec.big_sum k (fun l =>
                      Spec.entry A i l * Spec.entry B l j * nth i z 0))).
    + apply big_sum_ext. intros i Hi.
      rewrite (entry_transpose n m _ j i HAB Hn Hj Hi).
      rewrite (entry_mul n k m A B i j HA HB Hn Hk Hi Hj).
      apply big_sum_scal_r.
    + rewrite big_sum_exchange. apply big_sum_ext. intros l Hl.
      rewrite (entry_transpose k m _ j l HB Hk Hj Hl).
      rewrite nth_mulv by now rewrite (is_matrix_nrows k n _ HAt).
      rewrite Hz, big_sum_scal_l. apply big_sum_ext. intros i Hi.
      rewrite (entry_transpose n k _ l i HA Hn Hl Hi). ring.
Qed.

Lemma transpose_diagonal c : Spec.transpose (Spec.diagonal c) = Spec.diagonal c.
Proof.
  pose proof (diagonal_is_matrix c) as HD.
  destruct (Nat.eq_dec (length c) 0) as [E|E].
  - destruct c; [reflexivity | discriminate].
  - unfold Spec.transpose.
    rewrite (is_matrix_nrows _ _ _ HD), (is_matrix_ncols _ _ _ HD) by lia.
    unfold Spec.diagonal at 2. apply mat_ext. intros i j Hi Hj.
    unfold Spec.diagonal. rewrite entry_mat by assumption.
    destruct (Nat.eqb_spec j i); destruct (Nat.eqb_spec i j);
      subst; try reflexivity; congruence.
Qed.

(** The adjoint: [x . (A^T z) = (A x) . z]. *)
Lemma inner_transpose k m A x z :
  is_matrix k m A -> length x = m -> length z = k -> (0 < k)%nat ->
  Spec.inner x (Spec.mulv (Spec.transpose A) z)
  = Spec.inner (Spec.mulv A x) z.
Proof.
  intros HA Hx Hz Hk.
  pose proof (transpose_is_matrix k m _ HA Hk) as HAt.
  unfold Spec.inner. rewrite mulv_length, (is_matrix_nrows k m _ HA), Hx.
  transitivity (Spec.big_sum m (fun j =>
                  Spec.big_sum k (fun l =>
                    Spec.entry A l j * nth j x 0 * nth l z 0))).
  - apply big_sum_ext. intros j Hj.
    rewrite nth_mulv by now rewrite (is_matrix_nrows m k _ HAt).
    rewrite Hz, big_sum_scal_l. apply big_sum_ext. intros l Hl.
    rewrite (entry_transpose k m _ j l HA Hk Hj Hl). ring.
  - rewrite big_sum_exchange. apply big_sum_ext. intros l Hl.
    rewrite nth_mulv by now rewrite (is_matrix_nrows k m _ HA).
    rewrite Hx, big_sum_scal_r. reflexivity.
Qed.

Lemma mulv_add n m A B x :
  is_matrix n m A -> is_matrix n m B -> (0 < n)%nat ->
  Spec.mulv (Spec.add A B) x
  = np.zip_with Rplus (Spec.mulv A x) (Spec.mulv B x).
Proof.
  intros HA HB Hn.
  assert (HAB : is_matrix n m (Spec.add A B)).
  { unfold Spec.add.
    rewrite (is_matrix_nrows n m A HA), (is_matrix_ncols n m A HA Hn).
    apply mat_is_matrix. }
  apply (nth_ext _ _ 0 0).
  - rewrite zip_with_length; rewrite !mulv_length;
      apply is_matrix_nrows in HAB, HA, HB; congruence.
  - intros i Hi. rewrite mulv_length, (is_matrix_nrows n m _ HAB) in Hi.
    rewrite nth_zip_with
      by (rewrite !mulv_length; apply is_matrix_nrows in HA, HB;
          congruence || lia).
    rewrite !nth_mulv
      by (rewrite ?(is_matrix_nrows n m _ HAB), ?(is_matrix_nrows n m _ HA),
            ?(is_matrix_nrows n m _ HB); assumption).
    rewrite <- big_sum_plus. apply big_sum_ext. intros j Hj.
    unfold Spec.add.
    rewrite (is_matrix_nrows n m A HA), (is_matrix_ncols n m A HA Hn).
    destruct (Nat.lt_ge_cases j m) as [Hjm|Hjm].
    + rewrite entry_mat by assumption. ring.
    + assert (Hz : forall M, is_matrix n m M -> Spec.entry M i j = 0).
      { intros M HM. unfold Spec.entry. apply nth_overflow.
        rewrite (is_matrix_row n m M i HM Hi). exact Hjm. }
      rewrite (Hz _ (mat_is_matrix n m _)), (Hz A HA), (Hz B HB). ring.
Qed.

Lemma nth_map_scale r x i :
  nth i (map (Rmult r) x) 0 = r * nth i x 0.
Proof.
  revert i. induction x as [|a x IH]; intros [|i]; simpl;
    try ring; try reflexivity. apply IH.
Qed.

Lemma mulv_scale_identity m r x :
  length x = m ->
  Spec.mulv (Spec.scale r (Spec.identity m)) x = map (Rmult r) x.
Proof.
  intros Hx. destruct (Nat.eq_dec m 0) as [E|E].
  - subst m. destruct x; [reflexivity | discriminate].
  - pose proof (mat_is_matrix m m (fun i j => if Nat.eqb i j then 1 else 0))
      as HI. fold (Spec.identity m) in HI.
    assert (HS : is_matrix m m (Spec.scale r (Spec.identity m))).
    { unfold Spec.scale.
      rewrite (is_matrix_nrows m m _ HI), (is_matrix_ncols m m _ HI) by lia.
      apply mat_is_matrix. }
    apply (nth_ext _ _ 0 0).
    + now rewrite mulv_length, (is_matrix_nrows m m _ HS), length_map.
    + intros i Hi. rewrite mulv_length, (is_matrix_nrows m m _ HS) in Hi.
      rewrite nth_mulv by now rewrite (is_matrix_nrows m m _ HS).
      rewrite Hx, nth_map_scale.
      rewrite (big_sum_ext m _
                 (fun j => if Nat.eqb i j then r * nth j x 0 else 0)).
      * now apply big_sum_delta.
      * intros j Hj. unfold Spec.scale.
        rewrite (is_matrix_nrows m m _ HI), (is_matrix_ncols m m _ HI) by lia.
        rewrite entry_mat by assumption. unfold Spec.identity.
        rewrite entry_mat by assumption. destruct (Nat.eqb i j); ring.
Qed.

Lemma mulv_zip_plus n m A x y :
  is_matrix n m A -> length x = m -> length y = m ->
  Spec.mulv A (np.zip_with Rplus x y)
  = np.zip_with Rplus (Spec.mulv A x) (Spec.mulv A y).
Proof.
  intros HA Hx Hy.
  assert (Hxy : length (np.zip_with Rplus x y) = m)
    by (rewrite zip_with_length; congruence).
  apply (nth_ext _ _ 0 0).
  - rewrite zip_with_length; now rewrite !mulv_length.
  - intros i Hi. rewrite mulv_length in Hi.
    rewrite nth_zip_with by (now rewrite !mulv_length).
    rewrite !nth_mulv by assumption. rewrite Hxy, Hx, Hy.
    rewrite <- big_sum_plus. apply big_sum_ext. intros j Hj.
    rewrite nth_zip_with by (congruence || lia). ring.
Qed.

Lemma mulv_map_scale n m A r x :
  is_matrix n m A -> length x = m ->
  Spec.mulv A (map (Rmult r) x) = map (Rmult r) (Spec.mulv A x).
Proof.
  intros HA Hx.
  apply (nth_ext _ _ 0 0).
  - now rewrite length_map, !mulv_length.
  - intros i Hi. rewrite mulv_length in Hi.
    rewrite nth_map_scale.
    rewrite !nth_mulv by assumption. rewrite length_map, big_sum_scal_l.
    apply big_sum_ext. intros j Hj. rewrite nth_map_scale. ring.
Qed.

(** *** The posterior through the factorization *)

Lemma big_sum_nonneg k f :
  (forall l, (l < k)%nat -> 0 <= f l) -> 0 <= Spec.big_sum k f.
Proof.
  induction k as [|k IH]; intros H; [rewrite big_sum_0; lra|].
  rewrite big_sum_S.
  assert (0 <= Spec.big_sum k f) by (apply IH; intros; apply H; lia).
  assert (0 <= f k) by (apply H; lia). lra.
Qed.

Lemma ridge_pointwise d t r :
  length t = length d -> Forall (fun dk => dk ^ 2 + r <> 0) d ->
  np.zip_with Rplus
    (np.zip_with Rmult d
       (np.zip_with Rmult d (np.zip_with Rmult (posterior_weights d r) t)))
    (map (Rmult r) (np.zip_with Rmult (posterior_weights d r) t))
  = np.zip_with Rmult d t.
Proof.
  revert t. induction d as [|dk d IH]; intros [|tk t] Hlen Hd;
    simpl in *; try discriminate; [reflexivity|].
  inversion Hd as [|? ? Hdk Hd']; subst.
  rewrite IH by (auto; lia). f_equal. simpl in Hdk. field.
  intros E. apply Hdk. rewrite <- E. ring.
Qed.

Lemma inverse_pointwise d z r :
  length z = length d -> Forall (fun dk => dk ^ 2 + r <> 0) d ->
  np.zip_with Rmult (inverse_weights d r)
    (np.zip_with Rplus (np.zip_with Rmult d (np.zip_with Rmult d z))
                       (map (Rmult r) z))
  = z.
Proof.
  revert z. induction d as [|dk d IH]; intros [|zk z] Hlen Hd;
    simpl in *; try discriminate; [reflexivity|].
  inversion Hd as [|? ? Hdk Hd']; subst.
  rewrite IH by (auto; lia). f_equal. simpl in Hdk. field.
  intros E. apply Hdk. rewrite <- E. ring.
Qed.

Lemma scale_identity_is_matrix m r :
  (0 < m)%nat -> is_matrix m m (Spec.scale r (Spec.identity m)).
Proof.
  intros Hm.
  pose proof (mat_is_matrix m m (fun i j => if Nat.eqb i j then 1 else 0))
    as HI. fold (Spec.identity m) in HI.
  unfold Spec.scale.
  rewrite (is_matrix_nrows m m _ HI), (is_matrix_ncols m m _ HI Hm).
  apply mat_is_matrix.
Qed.

Section Factorized.

Variables (n m k : nat) (self : BR.obj).
Hypothesis Hf : factorized n m k self.

Let Hws : well_shaped n m k self := proj1 Hf.

Lemma factorized_shapes :
  (0 < n)%nat /\ (0 < m)%nat /\ (0 < k)%nat /\
  is_matrix n m (BR.X self) /\ length (BR.Y self) = n /\
  is_matrix n k (BR.u self) /\ length (BR.d self) = k /\
  is_matrix k m (BR.v self).
Proof. exact Hws. Qed.

(** [X x = U (d * (V x))] *)
Lemma apply_X x :
  length x = m ->
  Spec.mulv (BR.X self) x
  = Spec.mulv (BR.u self)
      (np.zip_with Rmult (BR.d self) (Spec.mulv (BR.v self) x)).
Proof.
  intros Hx. pose proof Hf as [_ [HX _]].
  destruct factorized_shapes as (Hn & Hm & Hk & _ & _ & Hu & Hd & Hv).
  pose proof (diagonal_is_matrix (BR.d self)) as HD. rewrite Hd in HD.
  pose proof (mul_is_matrix n k k _ _ Hu HD Hk) as HUD.
  rewrite <- HX.
  rewrite (mulv_mul n k m _ _ x HUD Hv Hx Hn Hk).
  assert (HVx : length (Spec.mulv (BR.v self) x) = k)
    by now rewrite mulv_length, (is_matrix_nrows k m _ Hv).
  rewrite (mulv_mul n k k _ _ _ Hu HD HVx Hn Hk).
  rewrite mulv_diagonal by congruence. reflexivity.
Qed.

(** [X^T z = V^T (d * (U^T z))] *)
Lemma apply_Xt z :
  length z = n ->
  Spec.mulv (Spec.transpose (BR.X self)) z
  = Spec.mulv (Spec.transpose (BR.v self))
      (np.zip_with Rmult (BR.d self)
         (Spec.mulv (Spec.transpose (BR.u self)) z)).
Proof.
  intros Hz. pose proof Hf as [_ [HX _]].
  destruct factorized_shapes as (Hn & Hm & Hk & _ & _ & Hu & Hd & Hv).
  pose proof (diagonal_is_matrix (BR.d self)) as HD. rewrite Hd in HD.
  pose proof (mul_is_matrix n k k _ _ Hu HD Hk) as HUD.
  pose proof (transpose_is_matrix n k _ Hu Hn) as HUt.
  rewrite <- HX.
  rewrite (mulv_transpose_mul n k m _ _ z HUD Hv Hz Hn Hk).
  rewrite (mulv_transpose_mul n k k _ _ z Hu HD Hz Hn Hk).
  rewrite transpose_diagonal.
  rewrite mulv_diagonal
    by (rewrite mulv_length, (is_matrix_nrows k n _ HUt); congruence).
  reflexivity.
Qed.

(** [U^T (U z) = z] and [V (V^T z) = z] *)
Lemma apply_UtU z :
  length z = k ->
  Spec.mulv (Spec.transpose (BR.u self)) (Spec.mulv (BR.u self) z) = z.
Proof.
  intros Hz. pose proof Hf as [_ [_ [HU _]]].
  destruct factorized_shapes as (Hn & Hm & Hk & _ & _ & Hu & Hd & Hv).
  pose proof (transpose_is_matrix n k _ Hu Hn) as HUt.
  rewrite <- (mulv_mul k n k _ _ z HUt Hu Hz Hk Hn), HU.
  now apply mulv_identity.
Qed.

Lemma apply_VVt z :
  length z = k ->
  Spec.mulv (BR.v self) (Spec.mulv (Spec.transpose (BR.v self)) z) = z.
Proof.
  intros Hz. pose proof Hf as [_ [_ [_ HV]]].
  destruct factorized_shapes as (Hn & Hm & Hk & _ & _ & Hu & Hd & Hv).
  pose proof (transpose_is_matrix k m _ Hv Hk) as HVt.
  rewrite <- (mulv_mul k m k _ _ z Hv HVt Hz Hk Hm), HV.
  now apply mulv_identity.
Qed.

(** The posterior mean is [V^T (c * (U^T y))], [c] the weights
    [d / (d^2 + r)]. *)
Lemma posterior_mean_factors r :
  posterior_mean self r
  = Spec.mulv (Spec.transpose (BR.v self))
      (np.zip_with Rmult (posterior_weights (BR.d self) r)
         (Spec.mulv (Spec.transpose (BR.u self)) (BR.Y self))).
Proof.
  destruct factorized_shapes as (Hn & Hm & Hk & _ & HY & Hu & Hd & Hv).
  pose proof (transpose_is_matrix k m _ Hv Hk) as HVt.
  pose proof (transpose_is_matrix n k _ Hu Hn) as HUt.
  assert (Hc : length (posterior_weights (BR.d self) r) = k)
    by (unfold posterior_weights; now rewrite length_map).
  pose proof (diagonal_is_matrix (posterior_weights (BR.d self) r)) as HC.
  rewrite Hc in HC.
  pose proof (mul_is_matrix m k k _ _ HVt HC Hk) as HVC.
  unfold posterior_mean, right_factor.
  rewrite (mulv_mul m k n _ _ _ HVC HUt HY Hm Hk).
  assert (Ht : length (Spec.mulv (Spec.transpose (BR.u self)) (BR.Y self))
               = k)
    by now rewrite mulv_length, (is_matrix_nrows k n _ HUt).
  rewrite (mulv_mul m k k _ _ _ HVt HC Ht Hm Hk).
  rewrite mulv_diagonal by congruence. reflexivity.
Qed.

(** The normal equations of the regularised least squares problem:
    [(X^T X + r I) w = X^T y] for the posterior mean [w]. *)
Lemma posterior_mean_normal_equations r :
  Forall (fun dk => dk ^ 2 + r <> 0) (BR.d self) ->
  Spec.mulv
    (Spec.add (Spec.mul (Spec.transpose (BR.X self)) (BR.X self))
              (Spec.scale r (Spec.identity m)))
    (posterior_mean self r)
  = Spec.mulv (Spec.transpose (BR.X self)) (BR.Y self).
Proof.
  intros Hr.
  destruct factorized_shapes as (Hn & Hm & Hk & HX & HY & Hu & Hd & Hv).
  pose proof (transpose_is_matrix n m _ HX Hn) as HXt.
  pose proof (transpose_is_matrix k m _ Hv Hk) as HVt.
  pose proof (transpose_is_matrix n k _ Hu Hn) as HUt.
  pose proof (mul_is_matrix m n m _ _ HXt HX Hn) as HG.
  pose proof (scale_identity_is_matrix m r Hm) as HR.
  set (t := Spec.mulv (Spec.transpose (BR.u self)) (BR.Y self)).
  assert (Ht : length t = k)
    by (unfold t; now rewrite mulv_length, (is_matrix_nrows k n _ HUt)).
  set (c := posterior_weights (BR.d self) r).
  assert (Hc : length c = k)
    by (unfold c, posterior_weights; now rewrite length_map).
  assert (Hct : length (np.zip_with Rmult c t) = k)
    by (rewrite zip_with_length; congruence).
  assert (Hw : length (posterior_mean self r) = m).
  { rewrite posterior_mean_factors, mulv_length.
    now apply is_matrix_nrows in HVt. }
  rewrite (mulv_add m m _ _ _ HG HR Hm).
  rewrite (mulv_mul m n m _ _ _ HXt HX Hw Hm Hn).
  rewrite (mulv_scale_identity m r _ Hw).
  rewrite (apply_X _ Hw).
  rewrite posterior_mean_factors. fold t c.
  rewrite (apply_VVt _ Hct).
  assert (Hdct : length (np.zip_with Rmult (BR.d self)
                           (np.zip_with Rmult c t)) = k)
    by (rewrite zip_with_length; congruence).
  rewrite apply_Xt
    by (rewrite mulv_length; now apply is_matrix_nrows in Hu).
  rewrite (apply_UtU _ Hdct).
  rewrite <- (mulv_map_scale m k _ r _ HVt Hct).
  rewrite <- (mulv_zip_plus m k _ _ _ HVt)
    by (rewrite ?zip_with_length, ?length_map; congruence).
  rewrite (apply_Xt _ HY). fold t. unfold c.
  rewrite ridge_pointwise by (congruence || assumption). reflexivity.
Qed.

End Factorized.

Lemma positive_ratio_weights d r :
  0 < r -> Forall (fun dk => dk ^ 2 + r <> 0) d.
Proof.
  intros Hr. apply Forall_forall. intros dk _.
  assert (0 <= dk ^ 2) by (simpl; nra). lra.
Qed.

Lemma br2_factorized : factorized 4 2 2 br2.
Proof.
  split; [exact br2_well_shaped|]. exact br2_factorization.
Qed.

Lemma br3_factorized : factorized 4 3 3 br3.
Proof.
  split; [exact br3_well_shaped|]. exact br3_factorization.
Qed.

(** With factors as [np.linalg.svd] promises them and positive
    hyperparameters, the mean that [_weights_posterior_params] returns
    solves the regularised normal equations
    [(X^T X + (a/b) I) w = X^T y]: it is the posterior mean of the
    weights. *)
Theorem posterior_mean_solves_normal_equations n m k self a b :
  factorized n m k self -> 0 < a -> 0 < b ->
  exists self' w P,
    BR._weights_posterior_params self (NpFloat a) (NpFloat b)
    = Ok (self', (w, P)) /\
    Spec.mulv
      (Spec.add (Spec.mul (Spec.transpose (BR.X self)) (BR.X self))
                (Spec.scale (a / b) (Spec.identity m)))
      w
    = Spec.mulv (Spec.transpose (BR.X self)) (BR.Y self).
Proof.
  intros Hf Ha Hb.
  rewrite (weights_posterior_params_spec n m k self a b (proj1 Hf)).
  eexists. eexists. eexists. split; [reflexivity|].
  apply (posterior_mean_normal_equations n m k self Hf).
  apply positive_ratio_weights. now apply Rdiv_lt_0_compat.
Qed.

Lemma posterior_mean_solves_normal_equations_witness :
  exists self' w P,
    BR._weights_posterior_params br3 (NpFloat 1) (NpFloat 2)
    = Ok (self', (w, P)) /\
    Spec.mulv
      (Spec.add (Spec.mul (Spec.transpose (BR.X br3)) (BR.X br3))
                (Spec.scale (1 / 2) (Spec.identity 3)))
      w
    = Spec.mulv (Spec.transpose (BR.X br3)) (BR.Y br3).
Proof.
  apply (posterior_mean_solves_normal_equations 4 3 3 br3 1 2).
  - exact br3_factorized.
  - lra.
  - lra.
Defined.

Lemma entry_precision n m A a b i j :
  is_matrix n m A -> (0 < n)%nat -> (i < m)%nat -> (j < m)%nat ->
  Spec.entry (precision_all_entries A a b) i j
  = b * Spec.big_sum n (fun l => Spec.entry A l i * Spec.entry A l j) + a.
Proof.
  intros HA Hn Hi Hj. assert (Hm : (0 < m)%nat) by lia.
  pose proof (transpose_is_matrix n m _ HA Hn) as HAt.
  pose proof (mul_is_matrix m n m _ _ HAt HA Hn) as HG.
  unfold precision_all_entries. rewrite (is_matrix_ncols n m A HA Hn).
  unfold Spec.add, Spec.scale.
  rewrite (is_matrix_nrows m m _ HG), (is_matrix_ncols m m _ HG Hm).
  repeat rewrite (is_matrix_nrows m m _ (mat_is_matrix m m _)).
  repeat rewrite (is_matrix_ncols m m _ (mat_is_matrix m m _) Hm).
  rewrite !entry_mat by assumption.
  rewrite (entry_mul m n m _ _ i j HAt HA Hm Hn Hi Hj).
  rewrite (big_sum_ext n _
             (fun l => Spec.entry A l i * Spec.entry A l j)).
  - ring.
  - intros l Hl. now rewrite (entry_transpose n m A i l HA Hn Hi Hl).
Qed.

(** The precision that [_weights_posterior_params] returns is an [m] by
    [m] symmetric matrix whose entry [(i, j)] is
    [b * sum_l X[l][i] X[l][j] + a]: [a] is present in every entry, off
    the diagonal too. *)
Theorem posterior_precision_entries n m k self a b :
  well_shaped n m k self ->
  exists self' w P,
    BR._weights_posterior_params self (NpFloat a) (NpFloat b)
    = Ok (self', (w, P)) /\
    is_matrix m m P /\
    forall i j, (i < m)%nat -> (j < m)%nat ->
      Spec.entry P i j
      = b * Spec.big_sum n
              (fun l => Spec.entry (BR.X self) l i * Spec.entry (BR.X self) l j)
        + a /\
      Spec.entry P i j = Spec.entry P j i.
Proof.
  intros Hws.
  rewrite (weights_posterior_params_spec n m k self a b Hws).
  destruct Hws as (Hn & Hm & Hk & HX & _).
  eexists. eexists. eexists. split; [reflexivity|]. split.
  - unfold precision_all_entries, Spec.add.
    pose proof (transpose_is_matrix n m _ HX Hn) as HXt.
    pose proof (mul_is_matrix m n m _ _ HXt HX Hn) as HG.
    unfold Spec.scale at 1 2.
    rewrite (is_matrix_nrows m m _ HG), (is_matrix_ncols m m _ HG Hm).
    rewrite (is_matrix_nrows m m _ (mat_is_matrix m m _)),
      (is_matrix_ncols m m _ (mat_is_matrix m m _) Hm).
    apply mat_is_matrix.
  - intros i j Hi Hj.
    rewrite !(entry_precision n m _ a b) by assumption.
    split; [reflexivity|]. f_equal. f_equal.
    apply big_sum_ext. intros l _. ring.
Qed.

Lemma posterior_precision_entries_witness :
  exists self' w P,
    BR._weights_posterior_params br2 (NpFloat 1) (NpFloat 2)
    = Ok (self', (w, P)) /\
    is_matrix 2 2 P /\
    forall i j, (i < 2)%nat -> (j < 2)%nat ->
      Spec.entry P i j
      = 2 * Spec.big_sum 4
              (fun l => Spec.entry (BR.X br2) l i * Spec.entry (BR.X br2) l j)
        + 1 /\
      Spec.entry P i j = Spec.entry P j i.
Proof.
  apply (posterior_precision_entries 4 2 2 br2 1 2).
  unfold well_shaped, is_matrix. simpl.
  repeat split; try lia; repeat constructor.
Defined.

(** *** The predictive variance *)

(** What [_pred_dist_params] returns once the means are computed. *)
Lemma pred_dist_params_variances k m self a b x w_mu wp mu :
  (0 < k)%nat -> (0 < m)%nat ->
  is_matrix k m (BR.v self) -> length (BR.d self) = k ->
  Forall (fun row => length row = m) x ->
  dot_any x w_mu = Ok mu ->
  BR._pred_dist_params self (NpFloat a) (NpFloat b) x w_mu wp =
  Ok (mu, map (fun row => (1 + Spec.quad row (S_of self (a / b))) / b) x).
Proof.
  intros Hk Hm Hv Hd Hx Hmu. unfold BR._pred_dist_params.
  rewrite Hmu. cbn [bind truediv to_float].
  destruct (S_computed k m self (a / b) Hk Hm Hv Hd) as [p [Hp [HS HSm]]].
  rewrite Hp. cbn [bind]. rewrite HS. cbn [bind].
  rewrite (mapM_map _
             (fun row => (1 + Spec.quad row (S_of self (a / b))) / b));
    [reflexivity|].
  intros row Hrow.
  assert (Hlen : length row = m)
    by (rewrite Forall_forall in Hx; now apply Hx).
  rewrite (dot_mv_spec m m _ _ HSm Hm Hlen). cbn [bind].
  rewrite dot_vv_spec; [reflexivity|].
  rewrite mulv_length. apply is_matrix_nrows in HSm. congruence.
Qed.

(** [S x = V^T (w * (V x))], [w] the weights [1 / (d^2 + r)]. *)
Lemma apply_S k m self r x :
  (0 < k)%nat -> (0 < m)%nat ->
  is_matrix k m (BR.v self) -> length (BR.d self) = k -> length x = m ->
  Spec.mulv (S_of self r) x
  = Spec.mulv (Spec.transpose (BR.v self))
      (np.zip_with Rmult (inverse_weights (BR.d self) r)
         (Spec.mulv (BR.v self) x)).
Proof.
  intros Hk Hm Hv Hd Hx.
  pose proof (transpose_is_matrix k m _ Hv Hk) as HVt.
  assert (Hw : length (inverse_weights (BR.d self) r) = k)
    by (unfold inverse_weights; now rewrite length_map).
  pose proof (diagonal_is_matrix (inverse_weights (BR.d self) r)) as HW.
  rewrite Hw in HW.
  pose proof (mul_is_matrix m k k _ _ HVt HW Hk) as HVW.
  unfold S_of, right_factor.
  rewrite (transpose_involutive k m _ Hv Hk Hm).
  rewrite (mulv_mul m k m _ _ x HVW Hv Hx Hm Hk).
  assert (HVx : length (Spec.mulv (BR.v self) x) = k)
    by now rewrite mulv_length, (is_matrix_nrows k m _ Hv).
  rewrite (mulv_mul m k k _ _ _ HVt HW HVx Hm Hk).
  rewrite mulv_diagonal by congruence. reflexivity.
Qed.

Lemma inverse_weights_nonneg d r :
  0 < r -> Forall (fun t => 0 <= t) (inverse_weights d r).
Proof.
  intros Hr. unfold inverse_weights. apply Forall_forall. intros t Ht.
  apply in_map_iff in Ht as [dk [<- _]].
  assert (0 <= dk ^ 2) by (simpl; nra).
  apply Rlt_le, Rdiv_lt_0_compat; lra.
Qed.

Lemma inner_weighted_nonneg z w :
  length z = length w -> Forall (fun t => 0 <= t) w ->
  0 <= Spec.inner z (np.zip_with Rmult w z).
Proof.
  intros Hlen Hw. unfold Spec.inner. apply big_sum_nonneg. intros j Hj.
  rewrite nth_zip_with by (auto; lia).
  assert (0 <= nth j w 0).
  { rewrite Forall_forall in Hw. apply Hw, nth_In. lia. }
  nra.
Qed.

(** The quadratic form of [S] is a weighted sum of squares. *)
Lemma quad_S_nonneg k m self r x :
  (0 < k)%nat -> (0 < m)%nat ->
  is_matrix k m (BR.v self) -> length (BR.d self) = k -> length x = m ->
  0 < r -> 0 <= Spec.quad x (S_of self r).
Proof.
  intros Hk Hm Hv Hd Hx Hr. unfold Spec.quad.
  rewrite (apply_S k m self r x Hk Hm Hv Hd Hx).
  assert (HVx : length (Spec.mulv (BR.v self) x) = k)
    by now rewrite mulv_length, (is_matrix_nrows k m _ Hv).
  assert (Hw : length (inverse_weights (BR.d self) r) = k)
    by (unfold inverse_weights; now rewrite length_map).
  rewrite (inner_transpose k m _ x _ Hv Hx)
    by (rewrite ?zip_with_length; congruence || assumption).
  apply inner_weighted_nonneg; [congruence|].
  now apply inverse_weights_nonneg.
Qed.

(** With positive hyperparameters every predictive variance is at least
    the noise variance [1 / b], and there is one variance per query
    row. *)
Theorem predictive_variance_lower_bound k m q self a b x w wp :
  (0 < k)%nat -> (0 < m)%nat -> (0 < q)%nat ->
  is_matrix k m (BR.v self) -> length (BR.d self) = k ->
  is_matrix q m x -> length w = m -> 0 < a -> 0 < b ->
  exists mu vars,
    BR._pred_dist_params self (NpFloat a) (NpFloat b) x (Array1 w) wp
    = Ok (mu, vars) /\
    length vars = q /\
    Forall (fun s => 1 / b <= s) vars.
Proof.
  intros Hk Hm Hq Hv Hd Hx Hw Ha Hb.
  assert (Hmu : dot_any x (Array1 w) = Ok (Array1 (Spec.mulv x w))).
  { unfold dot_any. now rewrite (dot_mv_spec q m _ _ Hx Hq Hw). }
  rewrite (pred_dist_params_variances k m self a b x _ wp _
             Hk Hm Hv Hd (proj2 Hx) Hmu).
  eexists. eexists. split; [reflexivity|]. split.
  - rewrite length_map. now destruct Hx.
  - apply Forall_forall. intros s Hs.
    apply in_map_iff in Hs as [row [<- Hrow]].
    assert (Hlen : length row = m).
    { destruct Hx as [_ Hx]. rewrite Forall_forall in Hx. now apply Hx. }
    assert (Hr : 0 < a / b) by now apply Rdiv_lt_0_compat.
    pose proof (quad_S_nonneg k m self (a / b) row Hk Hm Hv Hd Hlen Hr)
      as Hquad.
    unfold Rdiv. apply Rmult_le_compat_r; [|lra].
    apply Rlt_le, Rinv_0_lt_compat, Hb.
Qed.

Lemma predictive_variance_lower_bound_witness :
  exists mu vars,
    BR._pred_dist_params br3 (NpFloat 1) (NpFloat 2)
      [[1; 0; 0]; [0; 1; 0]] (Array1 [1; 2; 3]) (Scalar (PyInt 0))
    = Ok (mu, vars) /\
    length vars = 2%nat /\
    Forall (fun s => 1 / 2 <= s) vars.
Proof.
  apply (predictive_variance_lower_bound 3 3 2 br3 1 2); simpl;
    try lia; try lra; try reflexivity;
    unfold is_matrix; simpl; split; try reflexivity; repeat constructor.
Defined.

(** [S] undoes [X^T X + r I] when the stored [v] is square with
    orthonormal columns as well. *)
Lemma S_inverts n m k self r z :
  factorized n m k self ->
  Spec.mul (Spec.transpose (BR.v self)) (BR.v self) = Spec.identity m ->
  Forall (fun dk => dk ^ 2 + r <> 0) (BR.d self) ->
  length z = m ->
  Spec.mulv (S_of self r)
    (Spec.mulv
       (Spec.add (Spec.mul (Spec.transpose (BR.X self)) (BR.X self))
                 (Spec.scale r (Spec.identity m)))
       z)
  = z.
Proof.
  intros Hf Horth Hr Hz.
  destruct (factorized_shapes n m k self Hf)
    as (Hn & Hm & Hk & HX & HY & Hu & Hd & Hv).
  pose proof (transpose_is_matrix n m _ HX Hn) as HXt.
  pose proof (transpose_is_matrix k m _ Hv Hk) as HVt.
  pose proof (mul_is_matrix m n m _ _ HXt HX Hn) as HG.
  pose proof (scale_identity_is_matrix m r Hm) as HR.
  assert (HVtV : Spec.mulv (Spec.transpose (BR.v self))
                   (Spec.mulv (BR.v self) z) = z).
  { rewrite <- (mulv_mul m k m _ _ z HVt Hv Hz Hm Hk), Horth.
    now apply mulv_identity. }
  set (Vz := Spec.mulv (BR.v self) z) in *.
  assert (HVz : length Vz = k)
    by (unfold Vz; now rewrite mulv_length, (is_matrix_nrows k m _ Hv)).
  assert (HdVz : length (np.zip_with Rmult (BR.d self) Vz) = k)
    by (rewrite zip_with_length; congruence).
  rewrite (mulv_add m m _ _ _ HG HR Hm).
  rewrite (mulv_mul m n m _ _ _ HXt HX Hz Hm Hn).
  rewrite (mulv_scale_identity m r _ Hz).
  rewrite (apply_X n m k self Hf _ Hz). fold Vz.
  rewrite (apply_Xt n m k self Hf)
    by (rewrite mulv_length; now apply is_matrix_nrows in Hu).
  rewrite (apply_UtU n m k self Hf _ HdVz).
  replace (map (Rmult r) z)
    with (Spec.mulv (Spec.transpose (BR.v self)) (map (Rmult r) Vz))
    by (rewrite (mulv_map_scale m k _ r _ HVt HVz); now rewrite HVtV).
  rewrite <- (mulv_zip_plus m k _ _ _ HVt)
    by (rewrite ?zip_with_length, ?length_map; congruence).
  rewrite (apply_S k m self r _ Hk Hm Hv Hd)
    by (rewrite mulv_length; now apply is_matrix_nrows in HVt).
  rewrite (apply_VVt n m k self Hf)
    by (rewrite zip_with_length; rewrite ?zip_with_length, ?length_map;
        congruence).
  rewrite inverse_pointwise by (congruence || assumption).
  exact HVtV.
Qed.

Lemma nth_map_rows (f : list R -> R) (x : list (list R)) i :
  (i < length x)%nat -> nth i (map f x) 0 = f (nth i x []).
Proof.
  intros Hi. rewrite (nth_indep _ 0 (f [])) by now rewrite length_map.
  apply map_nth.
Qed.

Lemma v3_columns_orthonormal :
  Spec.mul (Spec.transpose (BR.v br3)) (BR.v br3) = Spec.identity 3.
Proof. np_eval. entrywise. Qed.

(** With at least as many observations as features (the stored [v]
    square and orthogonal) and positive hyperparameters, the variance
    of query row [x_i] is [(1 + x_i . z) / b] for the solution [z] of
    [(X^T X + (a/b) I) z = x_i]: [S] is the inverse of
    [X^T X + (a/b) I]. *)
Theorem predictive_variance_by_inverse n m k q self a b x w wp :
  factorized n m k self ->
  Spec.mul (Spec.transpose (BR.v self)) (BR.v self) = Spec.identity m ->
  0 < a -> 0 < b ->
  (0 < q)%nat -> is_matrix q m x -> length w = m ->
  exists mu vars,
    BR._pred_dist_params self (NpFloat a) (NpFloat b) x (Array1 w) wp
    = Ok (mu, vars) /\
    forall i z, (i < q)%nat -> length z = m ->
      Spec.mulv
        (Spec.add (Spec.mul (Spec.transpose (BR.X self)) (BR.X self))
                  (Spec.scale (a / b) (Spec.identity m)))
        z
      = nth i x [] ->
      nth i vars 0 = (1 + Spec.inner (nth i x []) z) / b.
Proof.
  intros Hf Horth Ha Hb Hq Hx Hw.
  destruct (factorized_shapes n m k self Hf)
    as (Hn & Hm & Hk & HX & HY & Hu & Hd & Hv).
  assert (Hmu : dot_any x (Array1 w) = Ok (Array1 (Spec.mulv x w))).
  { unfold dot_any. now rewrite (dot_mv_spec q m _ _ Hx Hq Hw). }
  rewrite (pred_dist_params_variances k m self a b x _ wp _
             Hk Hm Hv Hd (proj2 Hx) Hmu).
  eexists. eexists. split; [reflexivity|].
  intros i z Hi Hz Hsol.
  rewrite (nth_map_rows
             (fun row => (1 + Spec.quad row (S_of self (a / b))) / b))
    by (destruct Hx; congruence).
  unfold Spec.quad. rewrite <- Hsol at 2.
  rewrite (S_inverts n m k self (a / b) z Hf Horth); auto.
  apply positive_ratio_weights. now apply Rdiv_lt_0_compat.
Qed.

Lemma predictive_variance_by_inverse_witness :
  exists mu vars,
    BR._pred_dist_params br3 (NpFloat 1) (NpFloat 2)
      [[1; 0; 0]; [0; 1; 0]] (Array1 [1; 2; 3]) (Scalar (PyInt 0))
    = Ok (mu, vars) /\
    forall i z, (i < 2)%nat -> length z = 3%nat ->
      Spec.mulv
        (Spec.add (Spec.mul (Spec.transpose (BR.X br3)) (BR.X br3))
                  (Spec.scale (1 / 2) (Spec.identity 3)))
        z
      = nth i [[1; 0; 0]; [0; 1; 0]] [] ->
      nth i vars 0 = (1 + Spec.inner (nth i [[1; 0; 0]; [0; 1; 0]] []) z) / 2.
Proof.
  apply (predictive_variance_by_inverse 4 3 3 2 br3 1 2).
  - exact br3_factorized.
  - exact v3_columns_orthonormal.
  - lra.
  - lra.
  - lia.
  - unfold is_matrix. simpl. split; [reflexivity | repeat constructor].
  - reflexivity.
Defined.

(** *** The fixed-point variant completes *)

Lemma fixed_point_iteration_ok n m k self Yg i st :
  well_shaped n m k self -> length Yg = n ->
  exists st' brk,
    BR.iteration self (Some Yg) "fixed-point" i st = Ok (st', brk).
Proof.
  intros Hws HYg.
  destruct (iteration_mean_ok n m k self Yg (BR.l_alpha st) (BR.l_beta st)
              Hws HYg) as [mu [Hmu Hlen]].
  destruct (fixed_point_update_spec n m k self mu st Hws Hlen)
    as [resid [Hfp _]].
  unfold BR.iteration. rewrite Hmu. simpl bind.
  change (String.eqb "fixed-point" "fixed-point") with true. cbv iota.
  rewrite Hfp. simpl bind.
  erewrite (log_likelihood_spec self mu _ resid) by reflexivity. simpl bind.
  eexists. eexists. reflexivity.
Qed.

Lemma fixed_point_for_range_ok n m k self Yg fuel :
  well_shaped n m k self -> length Yg = n ->
  forall i st,
    exists st', BR.for_range self (Some Yg) "fixed-point" fuel i st = Ok st'.
Proof.
  intros Hws HYg. induction fuel as [|fuel IH]; intros i st.
  - now exists st.
  - cbn [BR.for_range].
    destruct (fixed_point_iteration_ok n m k self Yg i st Hws HYg)
      as [st1 [brk Hit]].
    rewrite Hit. simpl bind. destruct brk; [now exists st1 | apply IH].
Qed.

(** On a well-shaped model, with [Y] bound in the module to a vector of
    [n] entries, [_evidence_approx] with ["fixed-point"] never raises,
    whatever the iteration cap and the initial draws, and it returns the
    model with float hyperparameters and the data untouched. *)
Theorem fixed_point_evidence_approx_completes
  n m k self Yg rnd max_iter :
  well_shaped n m k self -> length Yg = n ->
  exists a b,
    BR._evidence_approx self (Some Yg) rnd max_iter "fixed-point"
    = Ok (BR.set_hyper self (NpFloat a) (NpFloat b)).
Proof.
  intros Hws HYg. unfold BR._evidence_approx. destruct rnd as [a0 b0].
  destruct (fixed_point_for_range_ok n m k self Yg (Z.to_nat max_iter)
              Hws HYg 0%nat (BR.Locals a0 b0 None None None []))
    as [st Hst].
  rewrite Hst. simpl. now exists (BR.l_alpha st), (BR.l_beta st).
Qed.

Lemma fixed_point_evidence_approx_completes_witness :
  exists a b,
    BR._evidence_approx br3 (Some Y3) (1 / 2, 1 / 3) 100 "fixed-point"
    = Ok (BR.set_hyper br3 (NpFloat a) (NpFloat b)).
Proof.
  apply (fixed_point_evidence_approx_completes 4 3 3 br3 Y3
           (1 / 2, 1 / 3) 100).
  - unfold well_shaped, is_matrix. simpl.
    repeat split; try lia; repeat constructor.
  - reflexivity.
Defined.

(** *** [predict] between [_evidence_approx] and the weights *)

(** After the constructor and a successful [_evidence_approx], with the
    weights not yet stored, [predict] raises nothing: it returns zero for
    every entry of the query as the "means", and one variance per row. *)
Theorem predict_without_weights
  svd X0 Y0 t self0 Yg rnd max_iter method self1 k m q x y :
  BR.__init__ svd X0 Y0 t = Ok self0 ->
  BR._evidence_approx self0 Yg rnd max_iter method = Ok self1 ->
  (0 < k)%nat -> (0 < m)%nat ->
  is_matrix k m (BR.v self0) -> length (BR.d self0) = k ->
  is_matrix q m x ->
  exists vars,
    BR.predict self1 x y = Ok (Array2 (map (map (fun _ => 0)) x), vars) /\
    length vars = q.
Proof.
  intros Hinit Hev Hk Hm Hv Hd Hx.
  assert (Hw0 : BR.w_mu self0 = Scalar (PyInt 0)).
  { revert Hinit. unfold BR.__init__. simpl.
    destruct (svd _) as [[[u0 d0] v0]|]; [|discriminate].
    intros H. now inversion H. }
  revert Hev. unfold BR._evidence_approx. destruct rnd as [a0 b0].
  destruct (BR.for_range _ _ _ _ _ _) as [st|e]; simpl; [|discriminate].
  intros H. inversion H. subst self1. clear H.
  unfold BR.predict. cbn [BR.set_hyper BR.alpha BR.beta BR.w_mu BR.w_beta].
  rewrite Hw0. fold (BR.set_hyper self0 (NpFloat (BR.l_alpha st))
                                  (NpFloat (BR.l_beta st))).
  assert (Hmu : dot_any x (Scalar (PyInt 0))
                = Ok (Array2 (map (map (fun _ => 0)) x))).
  { unfold dot_any. f_equal. f_equal. apply map_ext. intros row.
    apply map_ext. intros c. simpl. ring. }
  rewrite (pred_dist_params_variances k m
             (BR.set_hyper self0 (NpFloat (BR.l_alpha st))
                                 (NpFloat (BR.l_beta st)))
             _ _ x _ _ _ Hk Hm Hv Hd (proj2 Hx) Hmu).
  cbn [bind]. eexists. split; [reflexivity|].
  rewrite length_map. now destruct Hx.
Qed.

Lemma predict_without_weights_witness :
  exists vars,
    BR.predict (BR.set_hyper br1 (NpFloat (1 / 2)) (NpFloat (1 / 3)))
               [[3]; [4]] None
    = Ok (Array2 (map (map (fun _ => 0)) [[3]; [4]]), vars) /\
    length vars = 2%nat.
Proof.
  apply (predict_without_weights (svd_returning (u1, d1, v1)) X1 Y1
           (1 / 100000) br1 None (1 / 2, 1 / 3) 0 "EM" _ 1 1 2).
  - np_eval. entrywise.
  - reflexivity.
  - lia.
  - lia.
  - unfold is_matrix. simpl. split; [reflexivity | repeat constructor].
  - reflexivity.
  - unfold is_matrix. simpl. split; [reflexivity | repeat constructor].
Defined.

(** *** The module-level [Y] of the script *)

(** The mean of an iteration, as a value. *)
Lemma iteration_mean_value n m k self Yg a b :
  well_shaped n m k self -> length Yg = n ->
  BR.iteration_mean self (Some Yg) a b
  = Ok (Spec.mulv (Spec.transpose (BR.v self))
          (np.zip_with Rmult (posterior_weights (BR.d self) (a / b))
             (Spec.mulv (Spec.transpose (BR.u self)) Yg))).
Proof.
  intros (Hn & Hm & Hk & HX & HY & Hu & Hd & Hv) HYg.
  unfold BR.iteration_mean.
  rewrite map_map, zip_with_map_r.
  change (map (fun dk => dk / (dk ^ 2 + a / b)) (BR.d self))
    with (posterior_weights (BR.d self) (a / b)).
  set (c := posterior_weights (BR.d self) (a / b)).
  assert (Hc : length c = k)
    by (unfold c, posterior_weights; now rewrite length_map).
  pose proof (T_is_matrix k m _ Hv Hk) as HTv.
  pose proof (T_is_matrix n k _ Hu Hn) as HTu.
  pose proof (diagonal_is_matrix c) as HD. rewrite Hc in HD.
  change (Spec.diagonal c) with (np.diag c) in HD.
  rewrite (dot_mm_spec m k k _ _ HTv HD Hm). cbn [bind BR.read_global].
  rewrite (dot_mv_spec k n _ _ HTu Hk HYg). cbn [bind].
  pose proof (mul_is_matrix m k k _ _ HTv HD Hk) as Hp1.
  assert (Ht : length (Spec.mulv (np.T (BR.u self)) Yg) = k)
    by now rewrite mulv_length, (is_matrix_nrows k n _ HTu).
  rewrite (dot_mv_spec m k _ _ Hp1 Hm Ht). f_equal.
  rewrite (mulv_mul m k k _ _ _ HTv HD Ht Hm Hk).
  change (np.diag c) with (Spec.diagonal c).
  rewrite mulv_diagonal by congruence. now rewrite !T_spec.
Qed.

Lemma mulv_zeros n m A :
  is_matrix n m A -> Spec.mulv A (repeat 0 m) = repeat 0 n.
Proof.
  intros HA. apply (nth_ext _ _ 0 0).
  - now rewrite mulv_length, repeat_length, (is_matrix_nrows n m _ HA).
  - intros i Hi. rewrite mulv_length in Hi.
    rewrite nth_mulv by assumption. rewrite nth_repeat, repeat_length.
    rewrite (big_sum_ext m _ (fun _ => 0)); [apply big_sum_zero|].
    intros j _. rewrite nth_repeat. ring.
Qed.

Lemma uncentered_as_sum (l : list R) (mu : R) :
  l = np.zip_with Rplus (map (fun y => y - mu) l)
                        (map (Rmult mu) (repeat 1 (length l))).
Proof.
  induction l as [|y l IH]; simpl; [reflexivity|].
  rewrite <- IH. f_equal. ring.
Qed.

Lemma weights_kill_constant d A s r mu :
  length A = length d -> length s = length d ->
  np.zip_with Rmult d s = repeat 0 (length d) ->
  np.zip_with Rmult (posterior_weights d r)
    (np.zip_with Rplus A (map (Rmult mu) s))
  = np.zip_with Rmult (posterior_weights d r) A.
Proof.
  revert A s. induction d as [|dk d IH]; intros [|Ak A] [|sk s] HA Hs Hz;
    simpl in *; try discriminate; [reflexivity|].
  injection Hz as Hk Hz. rewrite IH by (auto; lia). f_equal.
  unfold Rdiv.
  transitivity (dk * / (dk * (dk * 1) + r) * Ak
                + mu * (dk * sk) * / (dk * (dk * 1) + r)); [ring|].
  rewrite Hk. ring.
Qed.

(** On a constructed model whose factors are as [np.linalg.svd] promises
    them, the mean of an iteration is the same whether the module-level
    [Y] is the response that the constructor received (as in the script)
    or the centered response that the model stores: the factor [u] of a
    centered design matrix annihilates the constant that centering
    removed. *)
Theorem iteration_mean_from_original_response
  svd X0 Y0 t self n m k a b :
  BR.__init__ svd X0 Y0 t = Ok self ->
  is_matrix n m X0 -> length Y0 = n -> factorized n m k self ->
  exists mu,
    BR.iteration_mean self (Some Y0) a b = Ok mu /\
    BR.iteration_mean self (Some (BR.Y self)) a b = Ok mu.
Proof.
  intros Hinit HX0 HY0 Hf.
  destruct (factorized_shapes n m k self Hf)
    as (Hn & Hm & Hk & HX & HY & Hu & Hd & Hv).
  assert (Hfields : BR.X self = fst (BR._center_2d X0) /\
                    BR.Y self = map (fun y => y - np.mean Y0) Y0).
  { revert Hinit. unfold BR.__init__. simpl.
    destruct (svd _) as [[[u0 d0] v0]|]; [|discriminate].
    intros H. inversion H. now split. }
  destruct Hfields as [HXc HYc].
  pose proof (transpose_is_matrix n k _ Hu Hn) as HUt.
  pose proof (transpose_is_matrix k m _ Hv Hk) as HVt.
  pose proof (transpose_is_matrix n m _ HX Hn) as HXt.
  rewrite (iteration_mean_value n m k self Y0 a b (proj1 Hf) HY0).
  rewrite (iteration_mean_value n m k self (BR.Y self) a b (proj1 Hf) HY).
  eexists. split; [reflexivity|]. f_equal. f_equal.
  (* the response is the centered response plus a constant vector *)
  assert (HY0eq : Y0 = np.zip_with Rplus (BR.Y self)
                         (map (Rmult (np.mean Y0)) (repeat 1 n))).
  { rewrite HYc, <- HY0. apply uncentered_as_sum. }
  rewrite HY0eq.
  rewrite (mulv_zip_plus k n _ _ _ HUt HY)
    by now rewrite length_map, repeat_length.
  rewrite (mulv_map_scale k n _ _ _ HUt) by apply repeat_length.
  set (s := Spec.mulv (Spec.transpose (BR.u self)) (repeat 1 n)).
  assert (Hs : length s = k)
    by (unfold s; now rewrite mulv_length, (is_matrix_nrows k n _ HUt)).
  symmetry. apply weights_kill_constant.
  - rewrite mulv_length, (is_matrix_nrows k n _ HUt). congruence.
  - congruence.
  - (* [X^T 1 = 0], hence [d * (U^T 1) = V (X^T 1) = 0] *)
    assert (HXt1 : Spec.mulv (Spec.transpose (BR.X self)) (repeat 1 n)
                   = repeat 0 m).
    { apply (nth_ext _ _ 0 0).
      - now rewrite mulv_length, repeat_length, (is_matrix_nrows m n _ HXt).
      - intros j Hj. rewrite mulv_length, (is_matrix_nrows m n _ HXt) in Hj.
        rewrite nth_mulv by now rewrite (is_matrix_nrows m n _ HXt).
        rewrite repeat_length, nth_repeat.
        rewrite (big_sum_ext n _ (fun i => Spec.entry (BR.X self) i j)).
        + rewrite HXc. now apply (centered_column_sum n m).
        + intros i Hi.
          rewrite (nth_indep _ 0 1) by now rewrite repeat_length.
          rewrite nth_repeat.
          rewrite (entry_transpose n m _ j i HX Hn Hj Hi). ring. }
    rewrite (apply_Xt n m k self Hf) in HXt1 by apply repeat_length.
    fold s in HXt1.
    apply (f_equal (Spec.mulv (BR.v self))) in HXt1.
    rewrite (apply_VVt n m k self Hf) in HXt1
      by (rewrite zip_with_length; congruence).
    rewrite (mulv_zeros k m _ Hv) in HXt1. now rewrite Hd.
Qed.

Lemma iteration_mean_from_original_response_witness :
  exists mu,
    BR.iteration_mean
      (BR.Build X3 [0; 0; 0] Y3 3 (1 / 100000) u3 d3 v3
                (PyInt 0) (PyInt 0) (Scalar (PyInt 0)) (Scalar (PyInt 0))
                None)
      (Some [4; 5; 2; 1]) 1 2 = Ok mu /\
    BR.iteration_mean
      (BR.Build X3 [0; 0; 0] Y3 3 (1 / 100000) u3 d3 v3
                (PyInt 0) (PyInt 0) (Scalar (PyInt 0)) (Scalar (PyInt 0))
                None)
      (Some Y3) 1 2 = Ok mu.
Proof.
  apply (iteration_mean_from_original_response
           (svd_returning (u3, d3, v3)) X3 [4; 5; 2; 1] (1 / 100000)
           (BR.Build X3 [0; 0; 0] Y3 3 (1 / 100000) u3 d3 v3
                (PyInt 0) (PyInt 0) (Scalar (PyInt 0)) (Scalar (PyInt 0))
                None)
           4 3 3 1 2).
  - np_eval. entrywise.
  - unfold is_matrix. simpl. split; [reflexivity | repeat constructor].
  - reflexivity.
  - split; [|exact br3_factorization].
    unfold well_shaped, is_matrix. simpl.
    repeat split; try lia; repeat constructor.
Defined.
